(** * Import engine of [import_enhance.py]: a shallow embedding and its properties

    The development follows the source top-down:
    - the input records ([ExportMessageNode], [ExportMessageTree]) and the
      persisted rows ([Message], [MessageTreeState]);
    - the session: a store of rows together with the log, threaded through a
      state-and-exception monad [M] (a Python exception keeps the writes made
      before it was raised);
    - [Importer.import_message], [Importer.import_tree], [handle_json_line],
      [import_tx] and [import_file];
    - the properties, one section per subject. *)

From Stdlib Require Import String Ascii List ZArith Bool Lia.
Import ListNotations.

Open Scope string_scope.
Open Scope list_scope.
Open Scope Z_scope.

Set Implicit Arguments.
Set Warnings "-register-all".

(* ================================================================== *)
(** ** Python truthiness *)

Module Py.

(** [bool(s)] for an [Optional[str]]: [None] and the empty string are falsy. *)
Definition truthy_str (s : option string) : bool :=
  match s with
  | Some v => negb (String.eqb v "")
  | None => false
  end.

(** [bool(n)] for an [Optional[int]]: [None] and [0] are falsy. *)
Definition truthy_int (n : option Z) : bool :=
  match n with
  | Some v => negb (v =? 0)
  | None => false
  end.

(** [s or d] for an [Optional[str]] and a string default. *)
Definition or_str (s : option string) (d : string) : string :=
  match s with
  | Some v => if String.eqb v "" then d else v
  | None => d
  end.

(** [s or d] where the default is itself optional. *)
Definition or_opt_str (s d : option string) : option string :=
  if truthy_str s then s else d.

(** [n or d] for an [Optional[int]]. *)
Definition or_int (n : option Z) (d : Z) : Z :=
  match n with
  | Some v => if v =? 0 then d else v
  | None => d
  end.

(** [x if x is not None else d]. *)
Definition if_not_none {A} (x : option A) (d : A) : A :=
  match x with
  | Some v => v
  | None => d
  end.

End Py.

(* ================================================================== *)
(** ** Input records ([oasst_data]) *)

(** [ExportMessageNode]: the fields [import_message] reads.  [replies] is
    [Optional[list]] in Python; [None] and [[]] are both falsy at line 74, so
    both are the empty list here. *)
Inductive ExportMessageNode : Type := mkNode {
  message_id : string;
  text : option string;
  role : string;
  lang : option string;
  review_count : option Z;
  synthetic : option bool;
  model_name : option string;
  replies : list ExportMessageNode
}.

(** [ExportMessageTree]: a tree id, which may be absent, and the root node. *)
Record ExportMessageTree : Type := mkTree {
  message_tree_id : option string;
  prompt : ExportMessageNode
}.

(** Modelled from the spec: [oasst_backend.models.message_tree_state.State] is
    not part of the source file.  The spec says it is a small enumeration of
    which exactly two values, Backlog and Ranking, are accepted at import; the
    other values are kept apart by their name. *)
Inductive TreeState : Type :=
| BACKLOG_RANKING
| RANKING
| OtherState (name : string).

Definition TreeState_eqb (a b : TreeState) : bool :=
  match a, b with
  | BACKLOG_RANKING, BACKLOG_RANKING => true
  | RANKING, RANKING => true
  | OtherState x, OtherState y => String.eqb x y
  | _, _ => false
  end.

(* ================================================================== *)
(** ** Persisted rows *)

(** The columns of [Message] that [import_message] sets. *)
Record Message : Type := mkMessage {
  msg_id : string;
  msg_message_tree_id : string;
  msg_frontend_message_id : string;
  msg_parent_id : option string;
  msg_review_count : Z;
  msg_lang : string;
  msg_review_result : bool;
  msg_synthetic : bool;
  msg_model_name : option string;
  msg_role : string;
  msg_api_client_id : string;
  msg_payload_type : string;
  msg_payload_text : option string;
  msg_user_id : string
}.

(** The columns of [MessageTreeState] that [import_tree] sets. *)
Record MessageTreeState : Type := mkMTS {
  mts_message_tree_id : string;
  mts_goal_tree_size : Z;
  mts_max_depth : Z;
  mts_max_children_count : Z;
  mts_state : TreeState;
  mts_origin : string;
  mts_active : bool;
  mts_lang : string
}.

(** Modelled from the spec: the store behind the SQLModel [Session] is not
    part of the source file.  It is the two tables the importer touches, rows
    in insertion order, and the id of the system user that
    [UserRepository.lookup_system_user(username="import")] resolves.  The
    identifier of a row is its key: both lookups of the source end in
    [one_or_none()], and an insert of a second row with a key already present
    is refused by [flush] (see [db_add_message] and [World] for what a
    refused flush does to the session). *)
Record Store : Type := mkStore {
  messages : list Message;
  tree_states : list MessageTreeState;
  system_user_id : string
}.

(* ================================================================== *)
(** ** Exceptions, log and the session monad *)

(** The exceptions of the run.  [import_tree] raises [ValueError] at two
    places, told apart here by constructor: for the tree id (line 81) and for
    the state (line 85). *)
Inductive exn : Type :=
| JSONDecodeError
| ValidationError
| ValueError_tree_id
| ValueError_state (st : TreeState)
| AttributeError
| MultipleResultsFound
| IntegrityError
| PendingRollbackError.

(** The lines [loguru] receives, by call site. *)
Inductive LogEvent : Type :=
| SkippingExistingTree (id : option string)
| ImportedTree (id : string) (st : TreeState) (active : bool)
| ReachedMaxCount (m : Z)
| SkippingExistingMessage (id : string)
| ImportedMessage (id : string)
| FailedToDecode
| ValidationErrorForLine
| UnexpectedError (e : exn)
| DryRunWithRollback.

(** What a running transaction can change: the session and the log.
    [db] is the store as the session has written it: the rows that were there
    when the transaction began, followed by the rows the session has flushed
    since.  [inactive] says that a flush of the session was refused.  From
    then on the transaction is rolled back in the database: the rows flushed
    since it began are lost, every further query and flush of the session
    raises [PendingRollbackError], and so does its commit.  Nothing can read
    [db] through an inactive session, and nothing of it is persisted (see
    [fetch_message], [db_add_message] and [managed_tx_function]); it is kept
    as the record of what the session had sent. *)
Record World : Type := mkWorld {
  db : Store;
  log : list LogEvent;
  inactive : bool
}.

Definition M (A : Type) : Type := World -> (exn + A) * World.

Definition ret {A} (a : A) : M A := fun w => (inr a, w).

Definition raise {A} (e : exn) : M A := fun w => (inl e, w).

Definition bind {A B} (m : M A) (k : A -> M B) : M B :=
  fun w =>
    match m w with
    | (inr a, w') => k a w'
    | (inl e, w') => (inl e, w')
    end.

(** [try: body except Exception as e: handler e]. *)
Definition try_except {A} (body : M A) (handler : exn -> M A) : M A :=
  fun w =>
    match body w with
    | (inr a, w') => (inr a, w')
    | (inl e, w') => handler e w'
    end.

Notation "x <- m ;; k" := (bind m (fun x => k))
  (at level 61, m at next level, right associativity).
Notation "m ;;; k" := (bind m (fun _ => k))
  (at level 61, right associativity).

Definition logger (e : LogEvent) : M unit :=
  fun w => (inr tt, {| db := db w; log := log w ++ [e]; inactive := inactive w |}).

(** [Query.one_or_none()]. *)
Definition one_or_none {A} (rows : list A) : M (option A) :=
  match rows with
  | [] => ret None
  | [r] => ret (Some r)
  | _ :: _ :: _ => raise MultipleResultsFound
  end.

Definition has_message (id : string) (s : Store) : bool :=
  existsb (fun m => String.eqb (msg_id m) id) (messages s).

Definition has_tree_state (id : string) (s : Store) : bool :=
  existsb (fun t => String.eqb (mts_message_tree_id t) id) (tree_states s).

(** The session after a refused flush: its transaction is rolled back, and
    with it every row flushed since the transaction began, those of earlier
    lines too.  Only [inactive] changes here: [db] stays as the record of what
    had been sent, out of reach of every query and of the commit. *)
Definition deactivate (w : World) : World :=
  {| db := db w; log := log w; inactive := true |}.

(** [db.add(msg); db.flush()].  In an inactive session the flush raises
    [PendingRollbackError].  Otherwise the row is appended, unless its key is
    taken: then the flush raises [IntegrityError], the row is not written, the
    transaction is rolled back and the session is inactive from then on (see
    [deactivate]). *)
Definition db_add_message (msg : Message) : M unit :=
  fun w =>
    if inactive w then (inl PendingRollbackError, w)
    else if has_message (msg_id msg) (db w) then (inl IntegrityError, deactivate w)
    else (inr tt,
          {| db := {| messages := messages (db w) ++ [msg];
                      tree_states := tree_states (db w);
                      system_user_id := system_user_id (db w) |};
             log := log w;
             inactive := false |}).

(** [db.add(mts); db.flush()], in the same way. *)
Definition db_add_tree_state (mts : MessageTreeState) : M unit :=
  fun w =>
    if inactive w then (inl PendingRollbackError, w)
    else if has_tree_state (mts_message_tree_id mts) (db w)
    then (inl IntegrityError, deactivate w)
    else (inr tt,
          {| db := {| messages := messages (db w);
                      tree_states := tree_states (db w) ++ [mts];
                      system_user_id := system_user_id (db w) |};
             log := log w;
             inactive := false |}).

(* ================================================================== *)
(** ** [class Importer] *)

Definition IMPORT_API_CLIENT_ID : string := "bd8fde8b-1d8e-4e9a-9966-e96d000f8363".

(** The attributes of an [Importer] other than the session, which is in the
    [World]. *)
Record Importer : Type := mkImporter {
  imp_origin : string;
  imp_model_name : option string;
  imp_api_client_id : string;
  imp_import_user_id : string
}.

(** [Importer.__init__]: the API client has the well-known id (it is looked up
    or created, a write to a table this model does not follow) and the import
    user is the store's system user. *)
Definition Importer_init (s : Store) (origin : string) (model_name : option string)
  : Importer :=
  {| imp_origin := origin;
     imp_model_name := model_name;
     imp_api_client_id := IMPORT_API_CLIENT_ID;
     imp_import_user_id := system_user_id s |}.

(** [Importer.fetch_message].  The query of an inactive session raises. *)
Definition fetch_message (id : string) : M (option Message) :=
  fun w =>
    if inactive w then (inl PendingRollbackError, w)
    else one_or_none (filter (fun m => String.eqb (msg_id m) id) (messages (db w))) w.

(** [Importer.fetch_message_tree_state].  An absent id matches no row. *)
Definition fetch_message_tree_state (id : option string) : M (option MessageTreeState) :=
  fun w =>
    if inactive w then (inl PendingRollbackError, w)
    else
      one_or_none
        (filter (fun t => match id with
                          | Some i => String.eqb (mts_message_tree_id t) i
                          | None => false
                          end) (tree_states (db w))) w.

(** The [Message(...)] constructor call of lines 53-68. *)
Definition new_Message (imp : Importer) (message : ExportMessageNode)
    (tree_id : string) (parent_id : option string) : Message :=
  {| msg_id := message_id message;
     msg_message_tree_id := tree_id;
     msg_frontend_message_id := message_id message;
     msg_parent_id := parent_id;
     msg_review_count := Py.or_int (review_count message) 0;
     msg_lang := Py.or_str (lang message) "en";
     msg_review_result := true;
     msg_synthetic := Py.if_not_none (synthetic message) true;
     msg_model_name := Py.or_opt_str (model_name message) (imp_model_name imp);
     msg_role := role message;
     msg_api_client_id := imp_api_client_id imp;
     msg_payload_type := "MessagePayload";
     msg_payload_text := text message;
     msg_user_id := imp_import_user_id imp |}.

(** [PromptRepository.update_children_counts] rewrites the derived
    [children_count] column only, which is not among the columns of [Message]
    above; [db.refresh] reloads the row. *)
Definition update_children_counts (id : string) : M unit := ret tt.
Definition db_refresh (msg : Message) : M unit := ret tt.

(** [Importer.import_message]: the node first, then its replies in order,
    each with the new row as parent. *)
Fixpoint import_message (imp : Importer) (message : ExportMessageNode)
    (tree_id : string) (parent_id : option string) {struct message} : M Message :=
  let msg := new_Message imp message tree_id parent_id in
  db_add_message msg ;;;
  (match parent_id with
   | None => update_children_counts (msg_id msg)
   | Some _ => ret tt
   end) ;;;
  db_refresh msg ;;;
  (match message with
   | mkNode _ _ _ _ _ _ _ rs =>
       (fix import_replies (l : list ExportMessageNode) : M unit :=
          match l with
          | [] => ret tt
          | r :: l' =>
              import_message imp r tree_id (Some (msg_id msg)) ;;;
              import_replies l'
          end) rs
   end) ;;;
  ret msg.

(** The [for r in message.replies] loop on its own. *)
Definition import_replies (imp : Importer) (l : list ExportMessageNode)
    (tree_id : string) (parent : string) : M unit :=
  (fix import_replies (l : list ExportMessageNode) : M unit :=
     match l with
     | [] => ret tt
     | r :: l' =>
         import_message imp r tree_id (Some parent) ;;;
         import_replies l'
     end) l.

Definition invalid_tree_id (tree : ExportMessageTree) : bool :=
  negb (Py.truthy_str (message_tree_id tree))
  || negb (match message_tree_id tree with
           | Some i => String.eqb i (message_id (prompt tree))
           | None => false
           end).

Definition supported_state (state : TreeState) : bool :=
  TreeState_eqb state BACKLOG_RANKING || TreeState_eqb state RANKING.

(** [Importer.import_tree]. *)
Definition import_tree (imp : Importer) (tree : ExportMessageTree) (state : TreeState)
  : M (MessageTreeState * Message) :=
  if invalid_tree_id tree then
    raise ValueError_tree_id
  else
    root_msg <- import_message imp (prompt tree) (message_id (prompt tree)) None ;;
    if negb (supported_state state) then
      raise (ValueError_state state)
    else
      let active := TreeState_eqb state RANKING in
      let mts := {| mts_message_tree_id := msg_id root_msg;
                    mts_goal_tree_size := 0;
                    mts_max_depth := 0;
                    mts_max_children_count := 0;
                    mts_state := state;
                    mts_origin := imp_origin imp;
                    mts_active := active;
                    mts_lang := Py.or_str (Some (msg_lang root_msg)) "en" |} in
      db_add_tree_state mts ;;;
      ret (mts, root_msg).

(* ================================================================== *)
(** ** Lines of the input file *)

(** What [handle_json_line] asks of a decoded object: whether
    [get("message_tree_id")] and [get("message_id")] are truthy, and what
    [pydantic.parse_obj_as] makes of it for either record type ([None]: it
    raises [ValidationError]).  Decoding and schema validation themselves are
    library code. *)
Record DictNode : Type := mkDict {
  get_message_tree_id : bool;
  get_message_id : bool;
  as_tree : option ExportMessageTree;
  as_node : option ExportMessageNode
}.

(** A line of the file, by what [json.loads] makes of it. *)
Inductive Line : Type :=
| Malformed                 (* json.loads raises JSONDecodeError *)
| NonObject                 (* valid JSON, not an object: [.get] is missing *)
| Object (d : DictNode).

Definition json_loads_get (line : Line) : M DictNode :=
  match line with
  | Malformed => raise JSONDecodeError
  | NonObject => raise AttributeError
  | Object d => ret d
  end.

Definition parse_obj_as {A} (parsed : option A) : M A :=
  match parsed with
  | Some a => ret a
  | None => raise ValidationError
  end.

Definition reached (max_count : option Z) (imported_count : Z) : bool :=
  Py.truthy_int max_count
  && match max_count with
     | Some m => m <=? imported_count
     | None => false
     end.

(** The tree branch up to the test of [max_count] (lines 107-116); its value
    is the local [imported_count] afterwards. *)
Definition handle_tree (imp : Importer) (num_activate : Z) (imported_count : Z)
    (tree : ExportMessageTree) : M Z :=
  existing_mts <- fetch_message_tree_state (message_tree_id tree) ;;
  match existing_mts with
  | Some _ =>
      logger (SkippingExistingTree (message_tree_id tree)) ;;;
      ret imported_count
  | None =>
      let state := if num_activate <=? imported_count
                   then BACKLOG_RANKING else RANKING in
      r <- import_tree imp tree state ;;
      logger (ImportedTree (mts_message_tree_id (fst r))
                           (mts_state (fst r)) (mts_active (fst r))) ;;;
      ret (imported_count + 1)
  end.

(** The message branch (lines 122-128). *)
Definition handle_message (imp : Importer) (imported_count : Z)
    (message : ExportMessageNode) : M Z :=
  existing_msg <- fetch_message (message_id message) ;;
  match existing_msg with
  | Some _ =>
      logger (SkippingExistingMessage (message_id message)) ;;;
      ret imported_count
  | None =>
      msg <- import_message imp message (message_id message) None ;;
      logger (ImportedMessage (msg_id msg)) ;;;
      ret (imported_count + 1)
  end.

(** The [try] block of [handle_json_line] (lines 104-128); its value is the
    local [imported_count] when the block is left, by the [return] of line 119
    or at its end. *)
Definition handle_json_line_try (line : Line) (imp : Importer) (num_activate : Z)
    (max_count : option Z) (imported_count : Z) : M Z :=
  dict_node <- json_loads_get line ;;
  if get_message_tree_id dict_node then
    tree <- parse_obj_as (as_tree dict_node) ;;
    imported_count' <- handle_tree imp num_activate imported_count tree ;;
    if reached max_count imported_count' then
      logger (ReachedMaxCount (Py.if_not_none max_count 0)) ;;;
      ret imported_count'
    else ret imported_count'
  else if get_message_id dict_node then
    message <- parse_obj_as (as_node dict_node) ;;
    handle_message imp imported_count message
  else ret imported_count.

(** The three [except] clauses: each logs and falls through to the final
    [return imported_count].  Every statement of the block that can raise
    comes before the increment of its branch, so the local still has the value
    the function was called with. *)
Definition except_event (e : exn) : LogEvent :=
  match e with
  | JSONDecodeError => FailedToDecode
  | ValidationError => ValidationErrorForLine
  | _ => UnexpectedError e
  end.

Definition handle_json_line_except (imported_count : Z) (e : exn) : M Z :=
  logger (except_event e) ;;;
  ret imported_count.

(** [handle_json_line]. *)
Definition handle_json_line (line : Line) (imp : Importer) (num_activate : Z)
    (max_count : option Z) (imported_count : Z) : M Z :=
  try_except (handle_json_line_try line imp num_activate max_count imported_count)
             (handle_json_line_except imported_count).

(* ================================================================== *)
(** ** [import_file] *)

(** The [for line in file_in] loop of [import_tx].  Beside the count it gives
    the lines the iterator was never asked for. *)
Fixpoint import_lines (imp : Importer) (num_activate : Z) (max_count : option Z)
    (file_in : list Line) (imported_count : Z) : M (Z * list Line) :=
  match file_in with
  | [] => ret (imported_count, [])
  | line :: rest =>
      c <- handle_json_line line imp num_activate max_count imported_count ;;
      if reached max_count c then ret (c, rest)
      else import_lines imp num_activate max_count rest c
  end.

(** The body of [import_tx]. *)
Definition import_tx (file_in : list Line) (origin : string)
    (model_name : option string) (num_activate : Z) (max_count : option Z)
  : M (Z * list Line) :=
  fun w =>
    let importer := Importer_init (db w) origin model_name in
    import_lines importer num_activate max_count file_in 0 w.

Inductive CommitMode : Type := COMMIT | ROLLBACK.

(** [session.commit()]: the store as the session has written it becomes the
    persisted store; the commit of an inactive session raises. *)
Definition session_commit (w : World) : exn + Store :=
  if inactive w then inl PendingRollbackError else inr (db w).

(** Modelled from the spec: [db_utils.managed_tx_function] is not part of the
    source file.  By the spec's commit policy the wrapped function runs in one
    unit of work, a new session on the persisted store; on normal completion
    the session is committed in mode [COMMIT] and rolled back in mode
    [ROLLBACK]; an exception - of the function or of the commit - leaves the
    persisted store as it was and propagates.  The log lines of the call are
    returned beside the result. *)
Definition managed_tx_function {A} (auto_commit : CommitMode) (f : M A)
    (persisted : Store) : (exn + A) * Store * list LogEvent :=
  match f {| db := persisted; log := []; inactive := false |} with
  | (inr a, w) =>
      match auto_commit with
      | COMMIT =>
          match session_commit w with
          | inr s => (inr a, s, log w)
          | inl e => (inl e, persisted, log w)
          end
      | ROLLBACK => (inr a, persisted, log w)
      end
  | (inl e, w) => (inl e, persisted, log w)
  end.

(** [import_file]: the count, the persisted store afterwards and the log. *)
Definition import_file (input_file : list Line) (origin : string)
    (model_name : option string) (num_activate : Z) (max_count : option Z)
    (dry_run : bool) (persisted : Store) : (exn + Z) * Store * list LogEvent :=
  let dry_run_line := if dry_run then [DryRunWithRollback] else [] in
  match managed_tx_function (if dry_run then ROLLBACK else COMMIT)
          (import_tx input_file origin model_name num_activate max_count)
          persisted with
  | (inr r, s, l) => (inr (fst r), s, dry_run_line ++ l)
  | (inl e, s, l) => (inl e, s, dry_run_line ++ l)
  end.

(* ================================================================== *)
(** ** Sample records *)

(** A record without replies and without optional fields. *)
Definition leaf (id : string) : ExportMessageNode :=
  mkNode id (Some "hello") "prompter" None None None None [].

(** A record with the given replies. *)
Definition node_with (id : string) (rs : list ExportMessageNode) : ExportMessageNode :=
  mkNode id (Some "hello") "prompter" None None None None rs.

(** The line of a tree record and the line of a message record. *)
Definition tree_line (t : ExportMessageTree) : Line :=
  Object (mkDict true false (Some t) None).

Definition message_line (n : ExportMessageNode) : Line :=
  Object (mkDict false true None (Some n)).

Definition tree_of (n : ExportMessageNode) : ExportMessageTree :=
  mkTree (Some (message_id n)) n.

Definition empty_store : Store := mkStore [] [] "system".

Definition empty_world : World := mkWorld empty_store [] false.

Definition sample_importer : Importer := Importer_init empty_store "sample" None.

(* ================================================================== *)
(** ** The rows of a subtree *)

(** The nodes of a record in the order [import_message] visits them. *)
Fixpoint nodes (n : ExportMessageNode) : list ExportMessageNode :=
  n :: match n with
       | mkNode _ _ _ _ _ _ _ rs =>
           (fix nodes_of (l : list ExportMessageNode) : list ExportMessageNode :=
              match l with
              | [] => []
              | r :: l' => nodes r ++ nodes_of l'
              end) rs
       end.

Fixpoint nodes_of (l : list ExportMessageNode) : list ExportMessageNode :=
  match l with
  | [] => []
  | r :: l' => nodes r ++ nodes_of l'
  end.

(** The rows [import_message] builds for a record, in the same order. *)
Fixpoint rows (imp : Importer) (n : ExportMessageNode) (tree_id : string)
    (parent_id : option string) {struct n} : list Message :=
  new_Message imp n tree_id parent_id
  :: match n with
     | mkNode id _ _ _ _ _ _ rs =>
         (fix rows_of (l : list ExportMessageNode) : list Message :=
            match l with
            | [] => []
            | r :: l' => rows imp r tree_id (Some id) ++ rows_of l'
            end) rs
     end.

Definition rows_of (imp : Importer) (l : list ExportMessageNode) (tree_id : string)
    (parent : string) : list Message :=
  (fix rows_of (l : list ExportMessageNode) : list Message :=
     match l with
     | [] => []
     | r :: l' => rows imp r tree_id (Some parent) ++ rows_of l'
     end) l.

(** [db.add; db.flush] for each row in turn, up to the first refusal. *)
Fixpoint insert_rows (l : list Message) : M unit :=
  match l with
  | [] => ret tt
  | m :: l' => db_add_message m ;;; insert_rows l'
  end.

(** The session after the rows [l] were added. *)
Definition add_messages (l : list Message) (w : World) : World :=
  {| db := {| messages := messages (db w) ++ l;
              tree_states := tree_states (db w);
              system_user_id := system_user_id (db w) |};
     log := log w;
     inactive := inactive w |}.

Definition ids (l : list Message) : list string := map msg_id l.

Definition tree_ids (l : list MessageTreeState) : list string :=
  map mts_message_tree_id l.

(** The number of rows of the message table with a given id. *)
Definition count_messages (id : string) (s : Store) : nat :=
  count_occ string_dec (ids (messages s)) id.


(** A log line for a new record. *)
Definition is_import (e : LogEvent) : bool :=
  match e with
  | ImportedTree _ _ _ | ImportedMessage _ => true
  | _ => false
  end.

Definition count_imports (l : list LogEvent) : Z :=
  Z.of_nat (length (filter is_import l)).

(* ================================================================== *)
(** ** Induction on records *)

Section NodeInduction.

Variable P : ExportMessageNode -> Prop.
Hypothesis step :
  forall id t r l rc s mn rs,
    Forall P rs -> P (mkNode id t r l rc s mn rs).

Fixpoint node_ind (n : ExportMessageNode) : P n :=
  match n with
  | mkNode id t r l rc s mn rs =>
      step id t r l rc s mn
        ((fix all (l : list ExportMessageNode) : Forall P l :=
            match l with
            | [] => Forall_nil P
            | x :: l' => Forall_cons x (node_ind x) (all l')
            end) rs)
  end.

End NodeInduction.

(* ================================================================== *)
(** ** Notions used in the statements *)

(** The session [w] with [evs] logged after it. *)
Definition logged (evs : list LogEvent) (w : World) : World :=
  {| db := db w; log := log w ++ evs; inactive := inactive w |}.

(** The row [import_tree] creates for a tree in state [st]. *)
Definition new_MessageTreeState (imp : Importer) (root_msg : Message) (st : TreeState)
  : MessageTreeState :=
  {| mts_message_tree_id := msg_id root_msg;
     mts_goal_tree_size := 0;
     mts_max_depth := 0;
     mts_max_children_count := 0;
     mts_state := st;
     mts_origin := imp_origin imp;
     mts_active := TreeState_eqb st RANKING;
     mts_lang := Py.or_str (Some (msg_lang root_msg)) "en" |}.

(** What is left unchanged, and what can only grow, whatever is called. *)
Record grows (w w' : World) : Prop := mkGrows {
  grows_user : system_user_id (db w') = system_user_id (db w);
  grows_messages : exists added, messages (db w') = messages (db w) ++ added;
  grows_tree_states : exists added, tree_states (db w') = tree_states (db w) ++ added;
  grows_log : exists evs, log w' = log w ++ evs;
  grows_NoDup : NoDup (ids (messages (db w))) -> NoDup (ids (messages (db w')));
  grows_inactive : inactive w = true -> inactive w' = true
}.

(** The session after the tree state row [t] was added. *)
Definition add_tree_state (t : MessageTreeState) (w : World) : World :=
  {| db := {| messages := messages (db w);
              tree_states := tree_states (db w) ++ [t];
              system_user_id := system_user_id (db w) |};
     log := log w;
     inactive := inactive w |}.

(** The state a new tree is given when [imported_count] records were imported
    before it (line 111). *)
Definition state_for (num_activate imported_count : Z) : TreeState :=
  if num_activate <=? imported_count then BACKLOG_RANKING else RANKING.

(** What the log lines [evs] of one call say about it: the count grew by the
    number of records they report as imported, by one at most, and a tree they
    report has the state its position called for and a row saying so. *)
Definition line_events (q c : Z) (w w' : World) (c' : Z) (evs : list LogEvent) : Prop :=
  log w' = log w ++ evs
  /\ c' = c + count_imports evs
  /\ (c' = c \/ c' = c + 1)
  /\ forall id st act,
       In (ImportedTree id st act) evs ->
       st = state_for q c
       /\ act = TreeState_eqb st RANKING
       /\ exists mts, In mts (tree_states (db w'))
                      /\ mts_message_tree_id mts = id
                      /\ mts_state mts = st
                      /\ mts_active mts = act.

Ltac split_events := unfold line_events; refine (conj _ (conj _ (conj _ _))).

Ltac no_tree_event :=
  let H := fresh in
  intros ? ? ? H; simpl in H;
  repeat (destruct H as [H|H]; [discriminate H|]); destruct H.

(** What the log of a run says about it: every tree it reports was given the
    state called for by the number of records reported before it. *)
Definition run_events (q c : Z) (w w' : World) (c' : Z) (evs : list LogEvent) : Prop :=
  log w' = log w ++ evs
  /\ c' = c + count_imports evs
  /\ forall pre id st act post,
       evs = pre ++ ImportedTree id st act :: post ->
       st = state_for q (c + count_imports pre)
       /\ act = TreeState_eqb st RANKING
       /\ exists mts, In mts (tree_states (db w'))
                      /\ mts_message_tree_id mts = id
                      /\ mts_state mts = st
                      /\ mts_active mts = act.

(** The row [m] was built from the record [n] (for some parent). *)
Definition built_from (imp : Importer) (tree_id : string)
    (n : ExportMessageNode) (m : Message) : Prop :=
  exists parent, m = new_Message imp n tree_id parent.

(** The defaults of lines 58-62, read off a row and the record it is built
    from. *)
Definition defaults_applied (imp : Importer) (n : ExportMessageNode) (m : Message) : Prop :=
  msg_id m = message_id n
  /\ (lang n = None -> msg_lang m = "en")
  /\ (synthetic n = Some false -> msg_synthetic m = false)
  /\ (synthetic n <> Some false -> msg_synthetic m = true)
  /\ (review_count n = None -> msg_review_count m = 0)
  /\ (model_name n = None -> msg_model_name m = imp_model_name imp).

(* ================================================================== *)
(** ** Command line ([parse_args], [main]) *)

(** [str.lower()] on the letters A-Z; every other character is left as it
    is.  (Python also maps letters outside ASCII, none of them to a string of
    the ten words below.) *)
Definition lower_char (c : ascii) : ascii :=
  let n := nat_of_ascii c in
  if ((65 <=? n) && (n <=? 90))%nat then ascii_of_nat (n + 32) else c.

Fixpoint lower (s : string) : string :=
  match s with
  | EmptyString => EmptyString
  | String c s' => String (lower_char c) (lower s')
  end.

(** What [str2bool] is given: a [bool], or the text of the option. *)
Inductive ArgValue : Type :=
| BoolValue (b : bool)
| StrValue (s : string).

Inductive ArgumentTypeError : Type :=
| Boolean_value_expected.

Definition true_words : list string := ["yes"; "true"; "t"; "y"; "1"].
Definition false_words : list string := ["no"; "false"; "f"; "n"; "0"].

(** [v in words]. *)
Definition member (v : string) (words : list string) : bool :=
  existsb (String.eqb v) words.

(** [str2bool] of [parse_args]. *)
Definition str2bool (v : ArgValue) : ArgumentTypeError + bool :=
  match v with
  | BoolValue b => inr b
  | StrValue s =>
      if member (lower s) true_words then inr true
      else if member (lower s) false_words then inr false
      else inl Boolean_value_expected
  end.







(* ================================================================== *)
(** ** Notions used in the further statements *)

(** What the log says of a tree row: its id, state and [active] flag. *)
Definition summary (t : MessageTreeState) : string * TreeState * bool :=
  (mts_message_tree_id t, mts_state t, mts_active t).

(** The trees a log reports as imported, in order. *)
Fixpoint tree_events (l : list LogEvent) : list (string * TreeState * bool) :=
  match l with
  | [] => []
  | ImportedTree id st act :: l' => (id, st, act) :: tree_events l'
  | _ :: l' => tree_events l'
  end.

(** The shape of a tree state row as [import_tree] creates it under
    [handle_json_line]. *)
Definition created_tree_state (origin : string) (t : MessageTreeState) : Prop :=
  mts_goal_tree_size t = 0
  /\ mts_max_depth t = 0
  /\ mts_max_children_count t = 0
  /\ mts_origin t = origin
  /\ (mts_state t = BACKLOG_RANKING \/ mts_state t = RANKING)
  /\ mts_active t = TreeState_eqb (mts_state t) RANKING.

(** A row of the message table is in place after the rows [before] when it is
    the root of its own tree, or the child of one of them in the same tree. *)
Definition row_in_place (before : list Message) (m : Message) : Prop :=
  match msg_parent_id m with
  | None => msg_message_tree_id m = msg_id m
  | Some p =>
      exists parent, In parent before
                     /\ msg_id parent = p
                     /\ msg_message_tree_id parent = msg_message_tree_id m
  end.

(** A message table is a forest in insertion order: every row is in place
    after the rows before it. *)
Inductive forest : list Message -> Prop :=
| forest_nil : forest []
| forest_snoc l m : forest l -> row_in_place l m -> forest (l ++ [m]).

(** The attribution [import_message] gives every row. *)
Definition attributed (api_client user : string) (m : Message) : Prop :=
  msg_api_client_id m = api_client
  /\ msg_user_id m = user
  /\ msg_review_result m = true
  /\ msg_frontend_message_id m = msg_id m.

(** The tree rows a call or a run adds are those its log reports, in order;
    each has the shape of a new tree state and a root row in the message
    table. *)
Definition tree_rows (origin : string) (w w' : World) : Prop :=
  exists evs added,
    log w' = log w ++ evs
    /\ tree_states (db w') = tree_states (db w) ++ added
    /\ map summary added = tree_events evs
    /\ Forall (created_tree_state origin) added
    /\ Forall (fun t => exists root, In root (messages (db w'))
                                    /\ msg_id root = mts_message_tree_id t
                                    /\ msg_parent_id root = None) added.

(** The store [s'] has the rows of [s] and maybe more after them. *)
Definition store_grows (s s' : Store) : Prop :=
  (exists added, messages s' = messages s ++ added)
  /\ (exists added, tree_states s' = tree_states s ++ added).

(** A line is settled in a store when, in every active session on that store
    or a later one, handling it writes nothing, counts nothing and leaves the
    session active, whatever the parameters. *)
Definition settled (line : Line) (s : Store) : Prop :=
  forall imp q maxc c w',
    inactive w' = false ->
    store_grows s (db w') ->
    exists w2, handle_json_line line imp q maxc c w' = (inr c, w2)
               /\ db w2 = db w' /\ inactive w2 = false.

(* ================================================================== *)
(** ** Unfolding lemmas *)

Lemma nodes_eq n : nodes n = n :: nodes_of (replies n).
Proof. destruct n; reflexivity. Qed.

Lemma rows_eq imp n tid p :
  rows imp n tid p = new_Message imp n tid p :: rows_of imp (replies n) tid (message_id n).
Proof. destruct n; reflexivity. Qed.

Lemma rows_of_cons imp r l tid parent :
  rows_of imp (r :: l) tid parent
  = rows imp r tid (Some parent) ++ rows_of imp l tid parent.
Proof. reflexivity. Qed.

Lemma import_replies_cons imp r l tid parent :
  import_replies imp (r :: l) tid parent
  = (import_message imp r tid (Some parent) ;;; import_replies imp l tid parent).
Proof. reflexivity. Qed.

Lemma import_message_eq imp n tid p w :
  import_message imp n tid p w =
  (db_add_message (new_Message imp n tid p) ;;;
   import_replies imp (replies n) tid (message_id n) ;;;
   ret (new_Message imp n tid p)) w.
Proof.
  destruct n as [id t r l rc s mn rs]; simpl.
  unfold bind. destruct (db_add_message _ w) as [[e|[]] w1]; [reflexivity|].
  destruct p; reflexivity.
Qed.

Lemma insert_rows_app a b w :
  insert_rows (a ++ b) w = (insert_rows a ;;; insert_rows b) w.
Proof.
  revert w. induction a as [|m a IH]; intro w; simpl; [reflexivity|].
  unfold bind in *.
  destruct (db_add_message m w) as [[e|[]] w1]; [reflexivity|].
  apply IH.
Qed.

(* ================================================================== *)
(** ** [import_message] as a sequence of inserts *)

Lemma import_replies_rows imp tid parent rs :
  Forall (fun r => forall p w,
            import_message imp r tid p w
            = (insert_rows (rows imp r tid p) ;;; ret (new_Message imp r tid p)) w) rs ->
  forall w, import_replies imp rs tid parent w = insert_rows (rows_of imp rs tid parent) w.
Proof.
  induction 1 as [|r rs Hr _ IH]; intro w; [reflexivity|].
  rewrite import_replies_cons, rows_of_cons, insert_rows_app.
  unfold bind. rewrite Hr. unfold bind.
  destruct (insert_rows (rows imp r tid (Some parent)) w) as [[e|[]] w1];
    [reflexivity|apply IH].
Qed.

(** [import_message] adds the rows of the record one by one, in order, and
    stops at the first row the store refuses. *)
Lemma import_message_rows imp tid n :
  forall p w,
    import_message imp n tid p w
    = (insert_rows (rows imp n tid p) ;;; ret (new_Message imp n tid p)) w.
Proof.
  induction n as [id t r l rc s mn rs IH] using node_ind; intros p w.
  rewrite import_message_eq, rows_eq. simpl insert_rows. simpl replies. simpl message_id.
  unfold bind.
  destruct (db_add_message _ w) as [[e|[]] w1]; [reflexivity|].
  rewrite import_replies_rows by exact IH. reflexivity.
Qed.

Lemma add_messages_nil w : add_messages [] w = w.
Proof.
  destruct w as [[ms ts u] l]. unfold add_messages; simpl. now rewrite app_nil_r.
Qed.

Lemma add_messages_app a b w :
  add_messages (a ++ b) w = add_messages b (add_messages a w).
Proof. unfold add_messages; simpl. now rewrite app_assoc. Qed.

Lemma has_message_In id s :
  has_message id s = true <-> In id (ids (messages s)).
Proof.
  unfold has_message, ids. rewrite existsb_exists, in_map_iff.
  split; intros [m [H1 H2]]; exists m.
  - apply String.eqb_eq in H2. tauto.
  - split; [tauto|]. apply String.eqb_eq. tauto.
Qed.

Lemma has_tree_state_In id s :
  has_tree_state id s = true <-> In id (tree_ids (tree_states s)).
Proof.
  unfold has_tree_state, tree_ids. rewrite existsb_exists, in_map_iff.
  split; intros [m [H1 H2]]; exists m.
  - apply String.eqb_eq in H2. tauto.
  - split; [tauto|]. apply String.eqb_eq. tauto.
Qed.

Lemma db_add_message_cases m w :
  (inactive w = true /\ db_add_message m w = (inl PendingRollbackError, w))
  \/ (inactive w = false /\ has_message (msg_id m) (db w) = true
      /\ db_add_message m w = (inl IntegrityError, deactivate w))
  \/ (inactive w = false /\ has_message (msg_id m) (db w) = false
      /\ db_add_message m w = (inr tt, add_messages [m] w)).
Proof.
  unfold db_add_message. destruct (inactive w) eqn:I; [left; auto|right].
  destruct (has_message (msg_id m) (db w)); [left; auto|right].
  split; [reflexivity|]. split; [reflexivity|].
  unfold add_messages. now rewrite I.
Qed.

(** Whatever the outcome, the rows written are an initial part of [l] and
    nothing else of the session changes but, for a refused row, its being
    active; on success the rows written are all of [l]. *)
Lemma insert_rows_prefix l :
  forall w, exists added rest,
    l = added ++ rest
    /\ db (snd (insert_rows l w)) = db (add_messages added w)
    /\ log (snd (insert_rows l w)) = log w
    /\ (inactive w = true -> inactive (snd (insert_rows l w)) = true)
    /\ (forall u, fst (insert_rows l w) = inr u ->
                  rest = [] /\ snd (insert_rows l w) = add_messages added w).
Proof.
  induction l as [|m l IH]; intro w; cbn [insert_rows].
  - exists [], []. rewrite add_messages_nil. repeat split; auto.
  - unfold bind.
    destruct (db_add_message_cases m w) as [[I E]|[(I & _ & E)|(I & _ & E)]]; rewrite E.
    + exists [], (m :: l). rewrite add_messages_nil. simpl.
      repeat split; auto; discriminate.
    + exists [], (m :: l). rewrite add_messages_nil. simpl.
      repeat split; auto; discriminate.
    + destruct (IH (add_messages [m] w)) as (added & rest & E1 & E2 & E3 & E4 & E5).
      exists (m :: added), rest. subst l.
      change (m :: added) with ([m] ++ added). rewrite add_messages_app.
      repeat split; auto; try congruence; apply (E5 u H).
Qed.

(** In an active session, rows with fresh, pairwise distinct ids are all
    accepted. *)
Lemma insert_rows_ok l :
  forall w, inactive w = false ->
            NoDup (ids (messages (db w)) ++ ids l) ->
            insert_rows l w = (inr tt, add_messages l w).
Proof.
  induction l as [|m l IH]; intros w A H; simpl.
  - now rewrite add_messages_nil.
  - unfold bind.
    destruct (db_add_message_cases m w) as [[I _]|[(_ & E & _)|(_ & _ & E)]].
    + congruence.
    + exfalso. apply has_message_In in E. simpl in H.
      apply NoDup_remove_2 in H. apply H, in_or_app; auto.
    + rewrite E, IH.
      * now rewrite <- add_messages_app.
      * exact A.
      * simpl. unfold ids in *. rewrite map_app, <- app_assoc. exact H.
Qed.

(** The ids of the message table stay pairwise distinct. *)
Lemma insert_rows_NoDup l :
  forall w, NoDup (ids (messages (db w))) ->
            NoDup (ids (messages (db (snd (insert_rows l w))))).
Proof.
  induction l as [|m l IH]; intros w H; simpl; [exact H|].
  unfold bind.
  destruct (db_add_message_cases m w) as [[_ E]|[(_ & _ & E)|(_ & F & E)]]; rewrite E.
  - exact H.
  - exact H.
  - apply IH. simpl. unfold ids in *. rewrite map_app. simpl.
    apply NoDup_app; auto.
    + constructor; [intros []|constructor].
    + intros x Hx [Hm|[]]. subst x.
      apply has_message_In in Hx. unfold ids in Hx. congruence.
Qed.

(* ================================================================== *)
(** ** What one call changes *)

Lemma logged_nil w : logged [] w = w.
Proof. destruct w; unfold logged; simpl. now rewrite app_nil_r. Qed.

Lemma logger_eq e w : logger e w = (inr tt, logged [e] w).
Proof. reflexivity. Qed.

Lemma one_or_none_world {A} (rows : list A) w : snd (one_or_none rows w) = w.
Proof. destruct rows as [|a [|b rows]]; reflexivity. Qed.

Lemma one_or_none_nil {A} (rows : list A) w :
  fst (one_or_none rows w) = inr None <-> rows = [].
Proof.
  destruct rows as [|a [|b rows]]; simpl; split; intro H;
    try reflexivity; discriminate.
Qed.

Lemma fetch_message_world id w : snd (fetch_message id w) = w.
Proof.
  unfold fetch_message. destruct (inactive w); [reflexivity|apply one_or_none_world].
Qed.

Lemma fetch_message_tree_state_world id w : snd (fetch_message_tree_state id w) = w.
Proof.
  unfold fetch_message_tree_state.
  destruct (inactive w); [reflexivity|apply one_or_none_world].
Qed.

Lemma fetch_message_inactive id w :
  inactive w = true -> fetch_message id w = (inl PendingRollbackError, w).
Proof. unfold fetch_message. now intros ->. Qed.

Lemma fetch_message_tree_state_inactive id w :
  inactive w = true -> fetch_message_tree_state id w = (inl PendingRollbackError, w).
Proof. unfold fetch_message_tree_state. now intros ->. Qed.

Lemma filter_nil_existsb {A} (f : A -> bool) l :
  filter f l = [] <-> existsb f l = false.
Proof.
  induction l as [|a l IH]; simpl; [tauto|].
  destruct (f a); simpl; [split; discriminate|exact IH].
Qed.

(** [fetch_message] finds nothing exactly when the session is active and no
    row has the id. *)
Lemma fetch_message_None id w :
  fst (fetch_message id w) = inr None
  <-> inactive w = false /\ has_message id (db w) = false.
Proof.
  unfold fetch_message, has_message. destruct (inactive w).
  - simpl. split; [discriminate|intros [H _]; discriminate H].
  - rewrite one_or_none_nil, filter_nil_existsb. tauto.
Qed.

(** [fetch_message_tree_state] finds nothing exactly when the session is
    active and no row has the id. *)
Lemma fetch_message_tree_state_None id w :
  fst (fetch_message_tree_state (Some id) w) = inr None
  <-> inactive w = false /\ has_tree_state id (db w) = false.
Proof.
  unfold fetch_message_tree_state, has_tree_state. destruct (inactive w).
  - simpl. split; [discriminate|intros [H _]; discriminate H].
  - rewrite one_or_none_nil, filter_nil_existsb. tauto.
Qed.

(** [import_message] returns in an active session only. *)
Lemma import_message_returns_active imp n tid p w m :
  fst (import_message imp n tid p w) = inr m -> inactive w = false.
Proof.
  rewrite import_message_eq. unfold bind.
  destruct (db_add_message_cases (new_Message imp n tid p) w)
    as [[I E]|[(I & _ & E)|(I & _ & E)]]; rewrite E; try discriminate.
  intros _. exact I.
Qed.

(** The rows [import_message] writes are an initial part of the record's
    rows, all of them when it returns; nothing else of the session changes,
    but that a refused row leaves it inactive. *)
Lemma import_message_prefix imp n tid p w :
  exists added rest,
    rows imp n tid p = added ++ rest
    /\ db (snd (import_message imp n tid p w)) = db (add_messages added w)
    /\ log (snd (import_message imp n tid p w)) = log w
    /\ (inactive w = true -> inactive (snd (import_message imp n tid p w)) = true)
    /\ (forall m, fst (import_message imp n tid p w) = inr m ->
                  rest = [] /\ m = new_Message imp n tid p
                  /\ snd (import_message imp n tid p w) = add_messages added w
                  /\ inactive w = false).
Proof.
  pose proof (@import_message_returns_active imp n tid p w) as Act.
  rewrite import_message_rows in *. unfold bind in *.
  destruct (insert_rows_prefix (rows imp n tid p) w)
    as (added & rest & E1 & E2 & E3 & E4 & E5).
  exists added, rest.
  destruct (insert_rows (rows imp n tid p) w) as [[e|[]] w1]; simpl in *.
  - repeat split; auto; discriminate.
  - destruct (E5 tt eq_refl) as [-> ->].
    repeat split; auto; try (unfold ret in *; congruence). now apply (Act m).
Qed.

Lemma import_message_ok imp n tid p w :
  inactive w = false ->
  NoDup (ids (messages (db w)) ++ ids (rows imp n tid p)) ->
  import_message imp n tid p w
  = (inr (new_Message imp n tid p), add_messages (rows imp n tid p) w).
Proof.
  intros A H. rewrite import_message_rows. unfold bind.
  now rewrite (insert_rows_ok _ _ A H).
Qed.

Lemma import_message_NoDup imp n tid p w :
  NoDup (ids (messages (db w))) ->
  NoDup (ids (messages (db (snd (import_message imp n tid p w))))).
Proof.
  intro H. rewrite import_message_rows. unfold bind.
  pose proof (insert_rows_NoDup (rows imp n tid p) w H) as H'.
  destruct (insert_rows (rows imp n tid p) w) as [[e|[]] w1]; exact H'.
Qed.


(** In an inactive session [import_message] raises at once. *)
Lemma import_message_inactive imp n tid p w :
  inactive w = true ->
  import_message imp n tid p w = (inl PendingRollbackError, w).
Proof.
  intros A. rewrite import_message_eq. unfold bind, db_add_message. now rewrite A.
Qed.

Lemma grows_refl w : grows w w.
Proof.
  split; auto; exists []; now rewrite app_nil_r.
Qed.

Lemma grows_trans w1 w2 w3 : grows w1 w2 -> grows w2 w3 -> grows w1 w3.
Proof.
  intros [U1 [m1 M1] [t1 T1] [l1 L1] N1 I1] [U2 [m2 M2] [t2 T2] [l2 L2] N2 I2].
  split; auto.
  - congruence.
  - exists (m1 ++ m2). now rewrite M2, M1, app_assoc.
  - exists (t1 ++ t2). now rewrite T2, T1, app_assoc.
  - exists (l1 ++ l2). now rewrite L2, L1, app_assoc.
Qed.

Lemma grows_logged evs w : grows w (logged evs w).
Proof.
  split; simpl; auto; try (exists []; now rewrite app_nil_r). now exists evs.
Qed.

Lemma grows_deactivate w : grows w (deactivate w).
Proof.
  split; simpl; auto; exists []; now rewrite app_nil_r.
Qed.

Lemma grows_import_message imp n tid p w :
  grows w (snd (import_message imp n tid p w)).
Proof.
  destruct (import_message_prefix imp n tid p w) as (added & rest & _ & E & L & I & _).
  split.
  - now rewrite E.
  - exists added. now rewrite E.
  - exists []. rewrite E. simpl. now rewrite app_nil_r.
  - exists []. rewrite L. now rewrite app_nil_r.
  - apply import_message_NoDup.
  - exact I.
Qed.

Lemma db_add_tree_state_cases t w :
  (inactive w = true /\ db_add_tree_state t w = (inl PendingRollbackError, w))
  \/ (inactive w = false /\ has_tree_state (mts_message_tree_id t) (db w) = true
      /\ db_add_tree_state t w = (inl IntegrityError, deactivate w))
  \/ (inactive w = false /\ has_tree_state (mts_message_tree_id t) (db w) = false
      /\ db_add_tree_state t w = (inr tt, add_tree_state t w)).
Proof.
  unfold db_add_tree_state. destruct (inactive w) eqn:I; [left; auto|right].
  destruct (has_tree_state (mts_message_tree_id t) (db w)); [left; auto|right].
  split; [reflexivity|]. split; [reflexivity|].
  unfold add_tree_state. now rewrite I.
Qed.

Lemma grows_add_tree_state t w : grows w (add_tree_state t w).
Proof.
  split; simpl; auto; try (exists []; now rewrite app_nil_r). now exists [t].
Qed.

(** [import_tree], outcome by outcome.  An error leaves the tree state table
    as it was; a result means the state was one of the two supported ones,
    the whole record was written and one tree state row was added for it. *)
Lemma import_tree_facts imp tree st w :
  let r := import_tree imp tree st w in
  let root := new_Message imp (prompt tree) (message_id (prompt tree)) None in
  grows w (snd r)
  /\ log (snd r) = log w
  /\ match fst r with
     | inl _ => tree_states (db (snd r)) = tree_states (db w)
     | inr (mts, root_msg) =>
         root_msg = root
         /\ mts = new_MessageTreeState imp root st
         /\ invalid_tree_id tree = false
         /\ supported_state st = true
         /\ has_tree_state (message_id (prompt tree)) (db w) = false
         /\ tree_states (db (snd r)) = tree_states (db w) ++ [mts]
         /\ messages (db (snd r))
            = messages (db w) ++ rows imp (prompt tree) (message_id (prompt tree)) None
     end.
Proof.
  unfold import_tree. destruct (invalid_tree_id tree) eqn:Inv.
  { simpl. repeat split; auto using grows_refl; apply grows_refl. }
  unfold bind.
  pose proof (grows_import_message imp (prompt tree) (message_id (prompt tree)) None w) as G.
  destruct (import_message_prefix imp (prompt tree) (message_id (prompt tree)) None w)
    as (added & rest & E1 & E2 & L & _ & E3).
  destruct (import_message imp (prompt tree) (message_id (prompt tree)) None w)
    as [[e|m] w1]; simpl in G, E2, L, E3.
  { simpl. rewrite E2. auto. }
  destruct (E3 m eq_refl) as (-> & -> & -> & Act). rewrite app_nil_r in E1. subst added.
  clear E2 L E3.
  destruct (supported_state st) eqn:Sup; cbv beta iota delta [negb].
  2:{ simpl. auto. }
  fold (new_MessageTreeState imp
          (new_Message imp (prompt tree) (message_id (prompt tree)) None) st).
  set (root := new_Message imp (prompt tree) (message_id (prompt tree)) None) in *.
  set (mts := new_MessageTreeState imp root st).
  set (w1 := add_messages (rows imp (prompt tree) (message_id (prompt tree)) None) w) in *.
  cbv beta.
  destruct (db_add_tree_state_cases mts w1) as [[I E]|[(I & H & E)|(I & H & E)]];
    rewrite E.
  { simpl. auto. }
  { simpl. split; [eapply grows_trans; [exact G|apply grows_deactivate]|]. auto. }
  cbv beta iota delta [ret fst snd].
  split; [eapply grows_trans; [exact G|apply grows_add_tree_state]|].
  repeat split; auto.
Qed.

(** [import_tree] returns in an active session only, and leaves it active. *)
Lemma import_tree_returns_active imp tree st w r :
  fst (import_tree imp tree st w) = inr r ->
  inactive w = false /\ inactive (snd (import_tree imp tree st w)) = false.
Proof.
  unfold import_tree. destruct (invalid_tree_id tree); [discriminate|].
  unfold bind.
  destruct (import_message_prefix imp (prompt tree) (message_id (prompt tree)) None w)
    as (added & rest & _ & _ & _ & _ & E3).
  destruct (import_message imp (prompt tree) (message_id (prompt tree)) None w)
    as [[e|m] w1]; simpl in E3; [discriminate|].
  destruct (E3 m eq_refl) as (_ & _ & -> & Act).
  destruct (supported_state st); cbv beta iota delta [negb]; [|discriminate].
  match goal with
  | |- context [db_add_tree_state ?t ?w0] =>
      destruct (db_add_tree_state_cases t w0) as [[I E]|[(I & H & E)|(I & H & E)]];
        rewrite E
  end; try discriminate.
  intros _. split; [exact Act|]. simpl. exact Act.
Qed.

(** The tree branch, outcome by outcome: an error, a skip, or an import. *)
Lemma handle_tree_facts imp q c tree w :
  let r := handle_tree imp q c tree w in
  let root := new_Message imp (prompt tree) (message_id (prompt tree)) None in
  let mts := new_MessageTreeState imp root (state_for q c) in
  grows w (snd r)
  /\ match fst r with
     | inl _ => log (snd r) = log w /\ tree_states (db (snd r)) = tree_states (db w)
     | inr c' =>
         (c' = c /\ snd r = logged [SkippingExistingTree (message_tree_id tree)] w)
         \/ (c' = c + 1
             /\ fst (fetch_message_tree_state (message_tree_id tree) w) = inr None
             /\ invalid_tree_id tree = false
             /\ log (snd r)
                = log w ++ [ImportedTree (message_id (prompt tree)) (state_for q c)
                              (TreeState_eqb (state_for q c) RANKING)]
             /\ tree_states (db (snd r)) = tree_states (db w) ++ [mts]
             /\ messages (db (snd r))
                = messages (db w) ++ rows imp (prompt tree) (message_id (prompt tree)) None)
     end.
Proof.
  unfold handle_tree, bind.
  pose proof (fetch_message_tree_state_world (message_tree_id tree) w) as F.
  destruct (fetch_message_tree_state (message_tree_id tree) w) as [[e|[x|]] w0] eqn:Fe;
    simpl in F; subst w0.
  - simpl. auto using grows_refl.
  - rewrite logger_eq. simpl. split; [apply grows_logged|]. left. auto.
  - fold (state_for q c).
    pose proof (import_tree_facts imp tree (state_for q c) w) as T.
    destruct (import_tree imp tree (state_for q c) w) as [[e|[mts root]] w1];
      simpl in T.
    + simpl. destruct T as (G & L & T). auto.
    + destruct T as (G & L & -> & -> & Inv & Sup & Has & TS & MS).
      rewrite logger_eq. simpl.
      split; [eapply grows_trans; [exact G|apply grows_logged]|].
      right. rewrite L. repeat split; auto.
Qed.

(** The message branch, outcome by outcome. *)
Lemma handle_message_facts imp c message w :
  let r := handle_message imp c message w in
  grows w (snd r)
  /\ match fst r with
     | inl _ => log (snd r) = log w /\ tree_states (db (snd r)) = tree_states (db w)
     | inr c' =>
         (c' = c /\ snd r = logged [SkippingExistingMessage (message_id message)] w)
         \/ (c' = c + 1
             /\ has_message (message_id message) (db w) = false
             /\ snd r = logged [ImportedMessage (message_id message)]
                          (add_messages
                             (rows imp message (message_id message) None) w))
     end.
Proof.
  unfold handle_message, bind.
  pose proof (fetch_message_world (message_id message) w) as F.
  pose proof (fetch_message_None (message_id message) w) as N.
  destruct (fetch_message (message_id message) w) as [[e|[x|]] w0] eqn:Fe;
    simpl in F, N; subst w0.
  - simpl. auto using grows_refl.
  - rewrite logger_eq. simpl. split; [apply grows_logged|]. left. auto.
  - pose proof (grows_import_message imp message (message_id message) None w) as G.
    destruct (import_message_prefix imp message (message_id message) None w)
      as (added & rest & E1 & E2 & L & _ & E3).
    destruct (import_message imp message (message_id message) None w)
      as [[e|m] w1]; simpl in G, E2, L, E3.
    + simpl. split; [exact G|]. split; [exact L|]. now rewrite E2.
    + destruct (E3 m eq_refl) as (-> & -> & -> & _). rewrite app_nil_r in E1.
      subst added. rewrite logger_eq. simpl.
      split; [eapply grows_trans; [exact G|apply grows_logged]|].
      right. repeat split. now apply N.
Qed.

Lemma line_events_quiet q c w evs :
  count_imports evs = 0 ->
  (forall id st act, ~ In (ImportedTree id st act) evs) ->
  line_events q c w (logged evs w) c evs.
Proof.
  intros H0 Hn. split_events; simpl; rewrite ?H0; auto; try lia.
  intros id st act H. destruct (Hn _ _ _ H).
Qed.

Lemma line_events_error q c w w1 ev :
  log w1 = log w ->
  is_import ev = false ->
  line_events q c w (logged [ev] w1) c [ev].
Proof.
  intros L H. split_events; unfold count_imports; simpl; rewrite ?H, ?L; simpl;
    auto; try lia.
  intros id st act [E|[]]. subst ev. discriminate.
Qed.

Lemma is_import_except e : is_import (except_event e) = false.
Proof. destruct e; reflexivity. Qed.

(** [handle_json_line] always returns, and its log lines account for what it
    did. *)
Lemma handle_json_line_facts line imp q maxc c w :
  exists c' evs w',
    handle_json_line line imp q maxc c w = (inr c', w')
    /\ grows w w'
    /\ line_events q c w w' c' evs.
Proof.
  assert (Err : forall e w1,
             grows w w1 -> log w1 = log w ->
             exists c' evs w',
               handle_json_line_except c e w1 = (inr c', w')
               /\ grows w w' /\ line_events q c w w' c' evs).
  { intros e w1 G L. unfold handle_json_line_except, bind. rewrite logger_eq.
    eexists c, [_], _. split; [reflexivity|].
    split; [eapply grows_trans; [exact G|apply grows_logged]|].
    apply line_events_error; [exact L|apply is_import_except]. }
  unfold handle_json_line, try_except, handle_json_line_try, bind.
  destruct line as [| |d]; simpl json_loads_get; unfold raise, ret.
  1,2: apply Err; [apply grows_refl|reflexivity].
  destruct (get_message_tree_id d); [|destruct (get_message_id d)].
  - destruct (as_tree d) as [tree|]; simpl parse_obj_as; unfold raise, ret.
    2: apply Err; [apply grows_refl|reflexivity].
    pose proof (handle_tree_facts imp q c tree w) as T.
    destruct (handle_tree imp q c tree w) as [[e|c'] w1]; simpl in T.
    { destruct T as (G & L & _). apply Err; [exact G|exact L]. }
    destruct T as (G & [(-> & ->)|(-> & _ & _ & L & TS & _)]).
    + destruct (reached maxc c).
      * rewrite logger_eq.
        exists c, [SkippingExistingTree (message_tree_id tree);
                   ReachedMaxCount (Py.if_not_none maxc 0)]. eexists.
        split; [reflexivity|]. split; [eapply grows_trans; [exact G|apply grows_logged]|].
        split_events; simpl; rewrite <- ?app_assoc; simpl; auto;
          try (unfold count_imports; simpl; lia); no_tree_event.
      * exists c, [SkippingExistingTree (message_tree_id tree)]. eexists.
        split; [reflexivity|]. split; [exact G|].
        apply line_events_quiet; [reflexivity|]. intros ? ? ? [H|[]]. discriminate.
    + assert (LE : forall w2 evs, grows w1 w2 -> log w2 = log w1 ++ evs ->
                 count_imports evs = 0 ->
                 (forall id st act, ~ In (ImportedTree id st act) evs) ->
                 line_events q c w w2 (c + 1)
                   (ImportedTree (message_id (prompt tree)) (state_for q c)
                      (TreeState_eqb (state_for q c) RANKING) :: evs)).
      { intros w2 evs G2 L2 C0 Hn.
        split_events; rewrite ?L2, ?L, <- ?app_assoc; simpl;
          unfold count_imports in *; simpl; auto; try lia.
        - intros id st act [H|H]; [|destruct (Hn _ _ _ H)].
          injection H as <- <- <-. repeat split; auto.
          destruct (grows_tree_states G2) as [t2 T2].
          eexists. split; [rewrite T2, TS; apply in_or_app; left; apply in_or_app;
                           right; left; reflexivity|].
          simpl. auto. }
      destruct (reached maxc (c + 1)).
      * rewrite logger_eq. exists (c + 1). do 2 eexists. split; [reflexivity|].
        split; [eapply grows_trans; [exact G|apply grows_logged]|].
        apply LE; [apply grows_logged|reflexivity|reflexivity|].
        intros ? ? ? [H|[]]. discriminate.
      * exists (c + 1). do 2 eexists. split; [reflexivity|]. split; [exact G|].
        apply LE with (evs := []); [apply grows_refl|now rewrite app_nil_r|reflexivity|].
        intros ? ? ? [].
  - destruct (as_node d) as [message|]; simpl parse_obj_as; unfold raise, ret.
    2: apply Err; [apply grows_refl|reflexivity].
    pose proof (handle_message_facts imp c message w) as T.
    destruct (handle_message imp c message w) as [[e|c'] w1]; simpl in T.
    { destruct T as (G & L & _). apply Err; [exact G|exact L]. }
    destruct T as (G & [(-> & ->)|(-> & _ & ->)]).
    + exists c, [SkippingExistingMessage (message_id message)]. eexists.
      split; [reflexivity|]. split; [exact G|].
      apply line_events_quiet; [reflexivity|]. intros ? ? ? [H|[]]. discriminate.
    + exists (c + 1), [ImportedMessage (message_id message)]. eexists.
      split; [reflexivity|]. split; [exact G|].
      split_events; unfold count_imports; simpl; auto; try lia. no_tree_event.
  - exists c, [], w. split; [reflexivity|]. split; [apply grows_refl|].
    rewrite <- (logged_nil w) at 2. apply line_events_quiet; [reflexivity|].
    intros ? ? ? [].
Qed.

Lemma count_imports_app a b :
  count_imports (a ++ b) = count_imports a + count_imports b.
Proof.
  unfold count_imports. rewrite filter_app, length_app. lia.
Qed.

Lemma count_imports_nonneg l : 0 <= count_imports l.
Proof. unfold count_imports. lia. Qed.

Lemma count_imports_tree id st act l :
  count_imports (ImportedTree id st act :: l) = 1 + count_imports l.
Proof. unfold count_imports. cbn [filter is_import length]. lia. Qed.

Lemma line_events_run q c w w' c' evs :
  line_events q c w w' c' evs -> run_events q c w w' c' evs.
Proof.
  intros (L & C & B & T). refine (conj L (conj C _)).
  intros pre id st act post ->.
  rewrite count_imports_app, count_imports_tree in C.
  pose proof (count_imports_nonneg pre). pose proof (count_imports_nonneg post).
  replace (count_imports pre) with 0 by lia. rewrite Z.add_0_r.
  apply T, in_or_app. right. now left.
Qed.

Lemma run_events_app q c w w1 w2 c1 c2 evs1 evs2 :
  grows w1 w2 ->
  run_events q c w w1 c1 evs1 ->
  run_events q c1 w1 w2 c2 evs2 ->
  run_events q c w w2 c2 (evs1 ++ evs2).
Proof.
  intros G (L1 & C1 & T1) (L2 & C2 & T2).
  refine (conj _ (conj _ _)).
  - now rewrite L2, L1, app_assoc.
  - rewrite count_imports_app. lia.
  - intros pre id st act post E.
    assert (In2 : forall pre2, evs2 = pre2 ++ ImportedTree id st act :: post ->
                  pre = evs1 ++ pre2 ->
                  st = state_for q (c + count_imports pre)
                  /\ act = TreeState_eqb st RANKING
                  /\ exists mts, In mts (tree_states (db w2))
                                 /\ mts_message_tree_id mts = id
                                 /\ mts_state mts = st /\ mts_active mts = act).
    { intros pre2 E2 ->. rewrite count_imports_app.
      replace (c + (count_imports evs1 + count_imports pre2))
        with (c1 + count_imports pre2) by lia.
      now apply (T2 pre2 id st act post). }
    apply app_eq_app in E. destruct E as [l [[E1 E2]|[E1 E2]]].
    + destruct l as [|x l]; simpl in E2.
      * apply (In2 []); [now symmetry|]. rewrite app_nil_r in E1. now rewrite app_nil_r.
      * injection E2 as <- ->.
        destruct (T1 pre id st act l E1) as (S & A & mts & I & F).
        refine (conj S (conj A _)). exists mts. split; [|exact F].
        destruct (grows_tree_states G) as [t Ht]. rewrite Ht.
        apply in_or_app. now left.
    + apply (In2 l); assumption.
Qed.

(** The loop always returns; its log accounts for the count and for the state
    of every tree it created. *)
Lemma import_lines_facts imp q maxc lines :
  forall c w, exists c' rest evs w',
    import_lines imp q maxc lines c w = (inr (c', rest), w')
    /\ grows w w'
    /\ run_events q c w w' c' evs.
Proof.
  induction lines as [|line lines IH]; intros c w; simpl.
  - exists c, [], [], w. split; [reflexivity|]. split; [apply grows_refl|].
    refine (conj _ (conj _ _)).
    + now rewrite app_nil_r.
    + unfold count_imports. simpl. lia.
    + intros [|? ?] ? ? ? ? E; discriminate E.
  - unfold bind.
    destruct (handle_json_line_facts line imp q maxc c w) as (c1 & evs1 & w1 & E & G & LE).
    rewrite E. apply line_events_run in LE.
    destruct (reached maxc c1).
    + exists c1, lines, evs1, w1. auto.
    + destruct (IH c1 w1) as (c2 & rest & evs2 & w2 & E2 & G2 & RE).
      exists c2, rest, (evs1 ++ evs2), w2. split; [exact E2|].
      split; [eapply grows_trans; eassumption|].
      eapply run_events_app; eassumption.
Qed.

(* ================================================================== *)
(** ** The test of [max_count] *)





(** Without a maximum the loop reads every line. *)
Lemma import_lines_None_rest imp q lines :
  forall c w, snd (match fst (import_lines imp q None lines c w) with
                   | inr r => r
                   | inl _ => (0, [])
                   end) = [].
Proof.
  induction lines as [|line lines IH]; intros c w; simpl; [reflexivity|].
  unfold bind.
  destruct (handle_json_line line imp q None c w) as [[e|c1] w1]; [reflexivity|].
  apply IH.
Qed.

Lemma reached_Some m c : m <> 0 -> reached (Some m) c = (m <=? c).
Proof.
  intro H. unfold reached. simpl. destruct (Z.eqb_spec m 0); [contradiction|reflexivity].
Qed.



Lemma grows_active w w' : grows w w' -> inactive w' = false -> inactive w = false.
Proof.
  intros G H. destruct (inactive w) eqn:I; [|reflexivity].
  rewrite (grows_inactive G I) in H. discriminate.
Qed.


(* ================================================================== *)
(** ** Field defaults of inserted messages *)

Lemma rows_of_nodes imp tid parent rs :
  Forall (fun r => forall p, Forall2 (built_from imp tid) (nodes r) (rows imp r tid p)) rs ->
  Forall2 (built_from imp tid) (nodes_of rs) (rows_of imp rs tid parent).
Proof.
  induction 1 as [|r rs Hr _ IH]; [constructor|].
  rewrite rows_of_cons. simpl nodes_of. apply Forall2_app; [apply Hr|exact IH].
Qed.

(** The rows of a record are built from its nodes, one for one and in order. *)
Lemma rows_nodes imp tid n :
  forall p, Forall2 (built_from imp tid) (nodes n) (rows imp n tid p).
Proof.
  induction n as [id t r l rc s mn rs IH] using node_ind; intro p.
  rewrite nodes_eq, rows_eq. constructor; [now exists p|].
  apply rows_of_nodes. exact IH.
Qed.

Lemma built_from_defaults imp tid n m :
  built_from imp tid n m -> defaults_applied imp n m.
Proof.
  intros [parent ->]. unfold defaults_applied. simpl.
  repeat split; try (intros ->; reflexivity).
  destruct (synthetic n) as [[|]|]; intro H; try reflexivity. now destruct H.
Qed.

(** C8.  Every message row that [import_message] inserts - the record's own
    and those of its replies, whether or not the call runs to its end - is
    built from a node of the record with the defaults applied: language "en"
    when the node has none, synthetic true unless the node says false (then
    false), review count 0 when the node has none, and the importer's model
    name when the node has none. *)
Theorem import_message_defaults :
  forall imp message tree_id parent_id w,
    exists inserted added,
      messages (db (snd (import_message imp message tree_id parent_id w)))
      = messages (db w) ++ added
      /\ incl inserted (nodes message)
      /\ Forall2 (defaults_applied imp) inserted added.
Proof.
  intros imp message tid p w.
  destruct (import_message_prefix imp message tid p w) as (added & rest & E1 & E2 & _).
  pose proof (rows_nodes imp tid message p) as F. rewrite E1 in F.
  apply Forall2_app_inv_r in F. destruct F as (na & nr & Fa & _ & En).
  exists na, added. rewrite E2. split; [reflexivity|]. split.
  - rewrite En. apply incl_appl, incl_refl.
  - eapply Forall2_impl; [|exact Fa]. intros n m. apply built_from_defaults.
Qed.

(* ================================================================== *)
(** ** The state check of [import_tree] *)

Lemma add_messages_neq l w : l <> [] -> db (add_messages l w) <> db w.
Proof.
  intros Hl E. apply (f_equal messages) in E. simpl in E.
  rewrite <- (app_nil_r (messages (db w))) in E at 2.
  apply app_inv_head in E. contradiction.
Qed.

Lemma rows_not_nil imp n tid p : rows imp n tid p <> [].
Proof. rewrite rows_eq. discriminate. Qed.

Lemma insert_rows_error l :
  forall w e, fst (insert_rows l w) = inl e ->
              e = IntegrityError \/ e = PendingRollbackError.
Proof.
  induction l as [|a l IH]; intros w e; simpl; [discriminate|].
  unfold bind.
  destruct (db_add_message_cases a w) as [[_ E]|[(_ & _ & E)|(_ & _ & E)]]; rewrite E.
  - simpl. intro H. injection H as <-. now right.
  - simpl. intro H. injection H as <-. now left.
  - apply IH.
Qed.

(** The only errors of [import_message] are those of a flush: a refused
    insert, or an inactive session. *)
Lemma import_message_error imp n tid p w e :
  fst (import_message imp n tid p w) = inl e ->
  e = IntegrityError \/ e = PendingRollbackError.
Proof.
  rewrite import_message_rows. unfold bind.
  pose proof (insert_rows_error (rows imp n tid p) w) as A.
  destruct (insert_rows (rows imp n tid p) w) as [[x|[]] w1]; simpl in *.
  - intro H. injection H as <-. now apply A.
  - discriminate.
Qed.

Lemma rows_ids imp tid n p :
  ids (rows imp n tid p) = map message_id (nodes n).
Proof.
  pose proof (rows_nodes imp tid n p) as F. unfold ids.
  induction F as [|x m l1 l2 [parent ->] _ IH]; simpl; [reflexivity|].
  now rewrite IH.
Qed.

(** C9.  For a tree with a valid tree id and a state that is neither Backlog
    nor Ranking: whenever [import_tree] raises the unsupported-state error,
    the rows of the root and of all its replies are in the session already,
    so the session is not what it was before the call; and it does raise it
    when the session is active and the ids of the tree are new and pairwise
    distinct. *)
Theorem import_tree_state_check_after_insert :
  forall imp tree st w,
    invalid_tree_id tree = false ->
    supported_state st = false ->
    let written := rows imp (prompt tree) (message_id (prompt tree)) None in
    (forall w', import_tree imp tree st w = (inl (ValueError_state st), w') ->
                w' = add_messages written w
                /\ ids written = map message_id (nodes (prompt tree))
                /\ db w' <> db w)
    /\ (inactive w = false ->
        NoDup (ids (messages (db w)) ++ ids written) ->
        import_tree imp tree st w = (inl (ValueError_state st), add_messages written w)).
Proof.
  intros imp tree st w Inv Sup written. unfold import_tree. rewrite Inv, Sup.
  unfold bind. simpl negb. cbv iota. split.
  - destruct (import_message_prefix imp (prompt tree) (message_id (prompt tree)) None w)
      as (added & rest & E1 & _ & _ & _ & E3).
    pose proof (@import_message_error imp (prompt tree) (message_id (prompt tree)) None w) as Er.
    destruct (import_message imp (prompt tree) (message_id (prompt tree)) None w)
      as [[e|m] w1]; simpl in E3, Er; intros w' H.
    + injection H as H1 H2. destruct (Er e eq_refl) as [->| ->]; discriminate H1.
    + destruct (E3 m eq_refl) as (-> & _ & -> & _). rewrite app_nil_r in E1.
      unfold raise in H. injection H as <-. fold written in E1. subst added.
      split; [reflexivity|]. split; [apply rows_ids|].
      apply add_messages_neq, rows_not_nil.
  - intros A N. fold written. rewrite import_message_ok by assumption. reflexivity.
Qed.

(** An instance of C9: a root with one reply, in a state that is not
    supported, on the empty store. *)
Lemma import_tree_state_check_after_insert_witness :
  let tree := tree_of (node_with "root" [leaf "reply"]) in
  let st := OtherState "GROWING" in
  import_tree sample_importer tree st empty_world
  = (inl (ValueError_state st),
     add_messages (rows sample_importer (prompt tree) "root" None) empty_world)
  /\ ids (messages (db (snd (import_tree sample_importer tree st empty_world))))
     = ["root"; "reply"].
Proof.
  split.
  - apply (proj2 (@import_tree_state_check_after_insert sample_importer
                    (tree_of (node_with "root" [leaf "reply"]))
                    (OtherState "GROWING") empty_world eq_refl eq_refl));
      [reflexivity|].
    simpl. repeat constructor; simpl; intuition discriminate.
  - reflexivity.
Defined.

(* ================================================================== *)
(** ** [max_count = 0] *)


(* ================================================================== *)
(** ** Dry run *)

(** C6.  A dry run returns the count of the run - the number of records its
    log reports as imported - and leaves the persisted store as it was.  The
    same run without [dry_run] logs the same lines; when it completes
    normally it returns the same count and persists the store of its session
    as it is when the loop ends, which holds every row already there and
    every row the run wrote.  It fails to complete only at the commit, when a
    flush of the run was refused, and then the persisted store is as it
    was. *)
Theorem dry_run_rolls_back :
  forall lines origin model_name num_activate max_count persisted,
    let dry := import_file lines origin model_name num_activate max_count true persisted in
    let wet := import_file lines origin model_name num_activate max_count false persisted in
    let session := {| db := persisted; log := []; inactive := false |} in
    let tx := import_tx lines origin model_name num_activate max_count session in
    snd (fst dry) = persisted
    /\ fst (fst dry) = inr (count_imports (snd dry))
    /\ snd dry = DryRunWithRollback :: snd wet
    /\ (forall n, fst (fst wet) = inr n ->
                  fst (fst dry) = inr n
                  /\ snd (fst wet) = db (snd tx)
                  /\ inactive (snd tx) = false
                  /\ grows session (snd tx))
    /\ (forall e, fst (fst wet) = inl e ->
                  e = PendingRollbackError
                  /\ snd (fst wet) = persisted
                  /\ inactive (snd tx) = true).
Proof.
  intros lines origin mn q maxc s. cbv zeta.
  unfold import_file, managed_tx_function, import_tx, session_commit. simpl db.
  destruct (import_lines_facts (Importer_init s origin mn) q maxc lines 0
              {| db := s; log := []; inactive := false |})
    as (n & rest & evs & w' & E & G & (L & C & _)).
  rewrite E. simpl in L.
  assert (Cn : n = count_imports (DryRunWithRollback :: log w')).
  { rewrite L. unfold count_imports in *. simpl. lia. }
  destruct (inactive w') eqn:I; simpl.
  - refine (conj eq_refl (conj _ (conj eq_refl (conj _ _)))).
    + now f_equal.
    + intros k H. discriminate H.
    + intros e H. injection H as <-. auto.
  - refine (conj eq_refl (conj _ (conj eq_refl (conj _ _)))).
    + now f_equal.
    + intros k H. injection H as <-. auto.
    + intros e H. discriminate H.
Qed.

(** An instance of C6: a tree with a reply and a message, dry and not. *)
Lemma dry_run_rolls_back_witness :
  let lines := [tree_line (tree_of (node_with "a" [leaf "b"])); message_line (leaf "c")] in
  let dry := import_file lines "origin" None 1 None true empty_store in
  let wet := import_file lines "origin" None 1 None false empty_store in
  fst (fst wet) = inr 2
  /\ fst (fst dry) = inr 2
  /\ snd (fst dry) = empty_store
  /\ ids (messages (snd (fst wet))) = ["a"; "b"; "c"].
Proof.
  cbv zeta. split; [reflexivity|].
  destruct (dry_run_rolls_back
              [tree_line (tree_of (node_with "a" [leaf "b"])); message_line (leaf "c")]
              "origin" None 1 None empty_store)
    as (S & _ & _ & W & _).
  split; [exact (proj1 (W 2 eq_refl))|]. split; [exact S|reflexivity].
Defined.

(* ================================================================== *)
(** ** Errors of one line *)

(** C4.  When the processing of a line raises - a decode failure, a
    validation failure or anything else - [handle_json_line] returns the count
    it was given, the error does not leave it, and the loop goes on with the
    next line.  In particular a malformed line between two new tree records
    leaves both imported and the count at 2. *)
Theorem line_errors_are_isolated :
  (forall line imp num_activate max_count imported_count w e w1,
      handle_json_line_try line imp num_activate max_count imported_count w
      = (inl e, w1) ->
      handle_json_line line imp num_activate max_count imported_count w
      = (inr imported_count, logged [except_event e] w1)
      /\ forall rest,
           reached max_count imported_count = false ->
           import_lines imp num_activate max_count (line :: rest) imported_count w
           = import_lines imp num_activate max_count rest imported_count
               (logged [except_event e] w1))
  /\ (let r := import_file
                 [tree_line (tree_of (leaf "a")); Malformed; tree_line (tree_of (leaf "b"))]
                 "origin" None 0 None false empty_store in
      fst (fst r) = inr 2
      /\ ids (messages (snd (fst r))) = ["a"; "b"]
      /\ tree_ids (tree_states (snd (fst r))) = ["a"; "b"]).
Proof.
  split; [|repeat split; reflexivity].
  intros line imp q maxc c w e w1 H.
  assert (E : handle_json_line line imp q maxc c w
              = (inr c, logged [except_event e] w1)).
  { unfold handle_json_line, try_except. rewrite H.
    unfold handle_json_line_except, bind. rewrite logger_eq. reflexivity. }
  split; [exact E|]. intros rest R. simpl. unfold bind. now rewrite E, R.
Qed.

(** An instance of C4: a line that is not JSON, in the middle of a run. *)
Lemma line_errors_are_isolated_witness :
  handle_json_line_try Malformed sample_importer 0 None 5 empty_world
  = (inl JSONDecodeError, empty_world)
  /\ handle_json_line Malformed sample_importer 0 None 5 empty_world
     = (inr 5, logged [FailedToDecode] empty_world).
Proof.
  split; [reflexivity|].
  exact (proj1 (proj1 line_errors_are_isolated Malformed sample_importer 0 None 5
                  empty_world JSONDecodeError empty_world eq_refl)).
Defined.

(* ================================================================== *)
(** ** Structural errors of [import_tree] *)

Lemma state_for_supported q c : supported_state (state_for q c) = true.
Proof. unfold state_for. destruct (q <=? c); reflexivity. Qed.

(** C1, as the code has it.  A tree record that [import_tree] rejects for its
    tree id (absent, or different from the id of the root) does not abort the
    run: the error is raised before anything is written, the catch-all clause
    of [handle_json_line] logs it and the count is returned unchanged, the
    session is left as it was and the loop goes on with the next line.  The
    state [handle_json_line] passes is always a supported one. *)
Theorem structural_error_is_caught :
  forall d tree imp num_activate max_count imported_count w,
    get_message_tree_id d = true ->
    as_tree d = Some tree ->
    fst (fetch_message_tree_state (message_tree_id tree) w) = inr None ->
    invalid_tree_id tree = true ->
    import_tree imp tree (state_for num_activate imported_count) w
    = (inl ValueError_tree_id, w)
    /\ handle_json_line (Object d) imp num_activate max_count imported_count w
       = (inr imported_count, logged [UnexpectedError ValueError_tree_id] w)
    /\ supported_state (state_for num_activate imported_count) = true
    /\ forall rest,
         reached max_count imported_count = false ->
         import_lines imp num_activate max_count (Object d :: rest) imported_count w
         = import_lines imp num_activate max_count rest imported_count
             (logged [UnexpectedError ValueError_tree_id] w).
Proof.
  intros d tree imp q maxc c w Hd Ht Hf Hi.
  assert (T : import_tree imp tree (state_for q c) w = (inl ValueError_tree_id, w)).
  { unfold import_tree. now rewrite Hi. }
  assert (H : handle_json_line (Object d) imp q maxc c w
              = (inr c, logged [UnexpectedError ValueError_tree_id] w)).
  { unfold handle_json_line, try_except, handle_json_line_try, bind. simpl.
    rewrite Hd, Ht. simpl. unfold handle_tree, bind.
    pose proof (fetch_message_tree_state_world (message_tree_id tree) w) as Fw.
    destruct (fetch_message_tree_state (message_tree_id tree) w) as [r w0].
    simpl in Hf, Fw. subst r w0. fold (state_for q c). rewrite T. reflexivity. }
  split; [exact T|]. split; [exact H|]. split; [apply state_for_supported|].
  intros rest R. simpl. unfold bind. now rewrite H, R.
Qed.

(** An instance of C1: a tree record whose tree id is not the id of its
    root. *)
Lemma structural_error_is_caught_witness :
  let tree := mkTree (Some "t1") (leaf "m1") in
  handle_json_line (tree_line tree) sample_importer 0 None 0 empty_world
  = (inr 0, logged [UnexpectedError ValueError_tree_id] empty_world).
Proof.
  exact (proj1 (proj2 (@structural_error_is_caught
                         (mkDict true false (Some (mkTree (Some "t1") (leaf "m1"))) None)
                         (mkTree (Some "t1") (leaf "m1")) sample_importer 0 None 0
                         empty_world eq_refl eq_refl eq_refl eq_refl))).
Defined.

(** C1 as stated fails: a run over a new tree, a tree record with a
    mismatched tree id and another new tree returns the count 2 and persists
    both trees, although [import_tree] raised the tree id error on the second
    line. *)
Lemma structural_error_does_not_abort :
  let bad := mkTree (Some "t1") (leaf "m1") in
  let r := import_file
             [tree_line (tree_of (leaf "a")); tree_line bad; tree_line (tree_of (leaf "b"))]
             "origin" None 0 None false empty_store in
  import_tree sample_importer bad BACKLOG_RANKING empty_world
  = (inl ValueError_tree_id, empty_world)
  /\ fst (fst r) = inr 2
  /\ ids (messages (snd (fst r))) = ["a"; "b"]
  /\ tree_ids (tree_states (snd (fst r))) = ["a"; "b"]
  /\ snd r = [ImportedTree "a" BACKLOG_RANKING false;
              UnexpectedError ValueError_tree_id;
              ImportedTree "b" BACKLOG_RANKING false].
Proof. repeat split; reflexivity. Qed.

(* ================================================================== *)
(** ** Activation quota *)

Lemma count_imports_dry l :
  count_imports (DryRunWithRollback :: l) = count_imports l.
Proof. reflexivity. Qed.

(** C2.  The claim - the first [num_activate] newly imported trees are
    created in state Ranking and active, whatever standalone messages are
    imported between them - is what the help text of [--num_activate] says
    ("Number of trees to set in ranking state"), and the code does not keep
    it: line 111 compares the quota with the count of all records imported so
    far, messages included.  With quota 1, a new standalone message before the
    first new tree takes the quota, and the tree - the first and only tree the
    run imports - is created in state Backlog and inactive; without the
    message line the same tree is created in state Ranking and active. *)
Lemma activation_depends_on_messages :
  let t := tree_line (tree_of (leaf "t")) in
  let with_message := import_file [message_line (leaf "m"); t] "origin" None 1 None
                        false empty_store in
  let without := import_file [t] "origin" None 1 None false empty_store in
  fst (fst with_message) = inr 2
  /\ snd with_message = [ImportedMessage "m"; ImportedTree "t" BACKLOG_RANKING false]
  /\ map (fun x => (mts_message_tree_id x, mts_state x, mts_active x))
         (tree_states (snd (fst with_message)))
     = [("t", BACKLOG_RANKING, false)]
  /\ fst (fst without) = inr 1
  /\ map (fun x => (mts_message_tree_id x, mts_state x, mts_active x))
         (tree_states (snd (fst without)))
     = [("t", RANKING, true)].
Proof. repeat split; reflexivity. Qed.

(* ================================================================== *)
(** ** Maximum count *)



(* ================================================================== *)
(** ** Lines by kind *)

(** [handle_json_line] on the line of a tree record. *)
Lemma handle_json_line_tree d tree imp q maxc c w :
  get_message_tree_id d = true ->
  as_tree d = Some tree ->
  handle_json_line (Object d) imp q maxc c w
  = match handle_tree imp q c tree w with
    | (inr c', w1) =>
        (inr c', if reached maxc c'
                 then logged [ReachedMaxCount (Py.if_not_none maxc 0)] w1 else w1)
    | (inl e, w1) => (inr c, logged [except_event e] w1)
    end.
Proof.
  intros Hd Ht. unfold handle_json_line, try_except, handle_json_line_try, bind.
  simpl. rewrite Hd, Ht. simpl.
  destruct (handle_tree imp q c tree w) as [[e|c'] w1]; [reflexivity|].
  destruct (reached maxc c'); reflexivity.
Qed.

(** [handle_json_line] on the line of a message record. *)
Lemma handle_json_line_message d message imp q maxc c w :
  get_message_tree_id d = false ->
  get_message_id d = true ->
  as_node d = Some message ->
  handle_json_line (Object d) imp q maxc c w
  = match handle_message imp c message w with
    | (inr c', w1) => (inr c', w1)
    | (inl e, w1) => (inr c, logged [except_event e] w1)
    end.
Proof.
  intros Hd Hm Hn. unfold handle_json_line, try_except, handle_json_line_try, bind.
  simpl. rewrite Hd, Hm, Hn. simpl.
  destruct (handle_message imp c message w) as [[e|c'] w1]; reflexivity.
Qed.


Lemma db_if_logged (b : bool) evs w : db (if b then logged evs w else w) = db w.
Proof. destruct b; reflexivity. Qed.



(** The message branch when the message id has a row. *)
Lemma handle_message_existing imp c message w :
  has_message (message_id message) (db w) = true ->
  db (snd (handle_message imp c message w)) = db w
  /\ forall c', fst (handle_message imp c message w) = inr c' -> c' = c.
Proof.
  intros Has. unfold handle_message, bind.
  pose proof (fetch_message_world (message_id message) w) as F.
  pose proof (fetch_message_None (message_id message) w) as N.
  destruct (fetch_message (message_id message) w) as [[e|[x|]] w0];
    simpl in F, N; subst w0.
  - split; [reflexivity|]. discriminate.
  - rewrite logger_eq. simpl. split; [reflexivity|]. congruence.
  - destruct (proj1 N eq_refl) as [_ H]. congruence.
Qed.

Lemma handle_message_existing_active imp c message w :
  has_message (message_id message) (db w) = true ->
  inactive (snd (handle_message imp c message w)) = inactive w.
Proof.
  intros Has. unfold handle_message, bind.
  pose proof (fetch_message_world (message_id message) w) as F.
  pose proof (fetch_message_None (message_id message) w) as N.
  destruct (fetch_message (message_id message) w) as [[e|[x|]] w0];
    simpl in F, N; subst w0; try reflexivity.
  destruct (proj1 N eq_refl) as [_ H]. congruence.
Qed.

Lemma inactive_if_logged (b : bool) evs w :
  inactive (if b then logged evs w else w) = inactive w.
Proof. destruct b; reflexivity. Qed.

Lemma invalid_tree_id_false tree id :
  message_tree_id tree = Some id ->
  invalid_tree_id tree = false ->
  id = message_id (prompt tree).
Proof.
  unfold invalid_tree_id. intros ->. intro H.
  apply orb_false_elim in H. destruct H as [_ H].
  apply negb_false_iff in H. now apply String.eqb_eq.
Qed.


(* ================================================================== *)
(** ** Idempotency *)




(* ================================================================== *)
(** ** A message and a tree with the same id *)

Lemma count_messages_one id s :
  NoDup (ids (messages s)) ->
  has_message id s = true ->
  count_messages id s = 1%nat.
Proof.
  intros N H. apply has_message_In in H. unfold count_messages.
  now apply (proj1 (NoDup_count_occ' string_dec _) N).
Qed.





(* ================================================================== *)
(** ** The message table under one call *)

Lemma has_message_messages id s s' :
  messages s' = messages s -> has_message id s' = has_message id s.
Proof. unfold has_message. now intros ->. Qed.

Lemma insert_rows_has_message l id w :
  has_message id (db w) = true ->
  has_message id (db (snd (insert_rows l w))) = true.
Proof.
  intro H. destruct (insert_rows_prefix l w) as (added & rest & _ & E & _).
  rewrite E. apply has_message_In. apply has_message_In in H.
  simpl. unfold ids. rewrite map_app. apply in_or_app. now left.
Qed.

(** After [import_message] in an active session, whatever its outcome, the
    id of the record has a row among those the session has sent. *)
Lemma import_message_root_present imp n tid p w :
  inactive w = false ->
  has_message (message_id n) (db (snd (import_message imp n tid p w))) = true.
Proof.
  intro A. rewrite import_message_rows, rows_eq. simpl insert_rows. unfold bind.
  destruct (db_add_message_cases (new_Message imp n tid p) w)
    as [[I E]|[(_ & H & E)|(_ & H & E)]]; rewrite E.
  - congruence.
  - exact H.
  - set (w0 := add_messages [new_Message imp n tid p] w).
    assert (H0 : has_message (message_id n) (db w0) = true).
    { apply has_message_In. simpl. unfold ids. rewrite map_app.
      apply in_or_app. right. now left. }
    pose proof (insert_rows_has_message
                  (rows_of imp (replies n) tid (message_id n)) _ _ H0) as H1.
    destruct (insert_rows (rows_of imp (replies n) tid (message_id n)) w0)
      as [[e|[]] w1]; exact H1.
Qed.

(** [import_tree] touches the message table through one call of
    [import_message] on the root, and not at all for an invalid tree id. *)
Lemma import_tree_messages imp tree st w :
  (invalid_tree_id tree = true /\ import_tree imp tree st w = (inl ValueError_tree_id, w))
  \/ (invalid_tree_id tree = false
      /\ messages (db (snd (import_tree imp tree st w)))
         = messages (db (snd (import_message imp (prompt tree)
                                (message_id (prompt tree)) None w)))).
Proof.
  unfold import_tree. destruct (invalid_tree_id tree); [left; auto|right].
  split; [reflexivity|]. unfold bind.
  destruct (import_message imp (prompt tree) (message_id (prompt tree)) None w)
    as [[e|m] w1]; [reflexivity|].
  destruct (supported_state st); [|reflexivity]. cbv beta iota delta [negb].
  match goal with
  | |- context [db_add_tree_state ?t w1] =>
      destruct (db_add_tree_state_cases t w1)
        as [[_ E]|[(_ & _ & E)|(_ & _ & E)]]; rewrite E
  end; reflexivity.
Qed.

(** The tree branch either leaves the session as it is, but for the log, and
    the count with it, or - when no tree state is found and the tree id is
    valid - changes the message table by one call of [import_message] on the
    root. *)
Lemma handle_tree_messages imp q c tree w :
  (db (snd (handle_tree imp q c tree w)) = db w
   /\ (forall c', fst (handle_tree imp q c tree w) = inr c' -> c' = c)
   /\ (fst (fetch_message_tree_state (message_tree_id tree) w) <> inr None
       \/ invalid_tree_id tree = true)
   /\ inactive (snd (handle_tree imp q c tree w)) = inactive w)
  \/ (fst (fetch_message_tree_state (message_tree_id tree) w) = inr None
      /\ invalid_tree_id tree = false
      /\ messages (db (snd (handle_tree imp q c tree w)))
         = messages (db (snd (import_message imp (prompt tree)
                                (message_id (prompt tree)) None w)))).
Proof.
  unfold handle_tree, bind.
  pose proof (fetch_message_tree_state_world (message_tree_id tree) w) as F.
  destruct (fetch_message_tree_state (message_tree_id tree) w) as [[e|[x|]] w0];
    simpl in F; subst w0.
  - left. simpl. repeat split; try discriminate. left. discriminate.
  - left. rewrite logger_eq. simpl. repeat split; try congruence. left. discriminate.
  - fold (state_for q c).
    destruct (import_tree_messages imp tree (state_for q c) w) as [[Inv E]|[Inv E]].
    + left. rewrite E. simpl. repeat split; try discriminate. now right.
    + right. split; [reflexivity|]. split; [exact Inv|].
      destruct (import_tree imp tree (state_for q c) w) as [[e|r] w1];
        [exact E|]. rewrite logger_eq. exact E.
Qed.

(** The message branch either finds the id taken and leaves the store and the
    count as they are, or changes the message table by one call of
    [import_message]. *)
Lemma handle_message_messages imp c message w :
  (has_message (message_id message) (db w) = true
   /\ db (snd (handle_message imp c message w)) = db w
   /\ forall c', fst (handle_message imp c message w) = inr c' -> c' = c)
  \/ (has_message (message_id message) (db w) = false
      /\ messages (db (snd (handle_message imp c message w)))
         = messages (db (snd (import_message imp message (message_id message) None w)))).
Proof.
  destruct (has_message (message_id message) (db w)) eqn:Has.
  - left. split; [reflexivity|]. now apply handle_message_existing.
  - right. split; [reflexivity|]. unfold handle_message, bind.
    destruct (inactive w) eqn:A.
    { rewrite (fetch_message_inactive _ _ A).
      now rewrite (@import_message_inactive imp message (message_id message) None w A). }
    pose proof (fetch_message_world (message_id message) w) as F.
    pose proof (proj2 (fetch_message_None (message_id message) w) (conj A Has)) as N.
    destruct (fetch_message (message_id message) w) as [r w0]; simpl in F, N.
    subst r w0.
    destruct (import_message imp message (message_id message) None w) as [[e|m] w1];
      [reflexivity|]. rewrite logger_eq. reflexivity.
Qed.

(** One call of [handle_json_line] leaves the message table as it is or
    changes it by one call of [import_message], on a record taken as the root
    of its own tree. *)
Lemma handle_json_line_messages line imp q maxc c w :
  messages (db (snd (handle_json_line line imp q maxc c w))) = messages (db w)
  \/ exists n,
       messages (db (snd (handle_json_line line imp q maxc c w)))
       = messages (db (snd (import_message imp n (message_id n) None w))).
Proof.
  destruct line as [| |d]; try (left; reflexivity).
  destruct (get_message_tree_id d) eqn:Hd; [|destruct (get_message_id d) eqn:Hm].
  - destruct (as_tree d) as [tree|] eqn:Ht.
    + rewrite (@handle_json_line_tree d tree imp q maxc c w Hd Ht).
      destruct (handle_tree_messages imp q c tree w) as [(D & _)|(_ & _ & E)].
      * left. destruct (handle_tree imp q c tree w) as [[e|c'] w1]; simpl in *.
        -- now rewrite D.
        -- rewrite db_if_logged. now rewrite D.
      * right. exists (prompt tree).
        destruct (handle_tree imp q c tree w) as [[e|c'] w1]; simpl in *.
        -- exact E.
        -- rewrite db_if_logged. exact E.
    + left. unfold handle_json_line, try_except, handle_json_line_try, bind. simpl.
      rewrite Hd, Ht. reflexivity.
  - destruct (as_node d) as [message|] eqn:Hn.
    + rewrite (@handle_json_line_message d message imp q maxc c w Hd Hm Hn).
      destruct (handle_message_messages imp c message w) as [(_ & D & _)|(_ & E)].
      * left. destruct (handle_message imp c message w) as [[e|c'] w1]; simpl in *;
          now rewrite D.
      * right. exists message.
        destruct (handle_message imp c message w) as [[e|c'] w1]; exact E.
    + left. unfold handle_json_line, try_except, handle_json_line_try, bind. simpl.
      rewrite Hd, Hm, Hn. reflexivity.
  - left. unfold handle_json_line, try_except, handle_json_line_try, bind. simpl.
    rewrite Hd, Hm. reflexivity.
Qed.

(** So whatever a root call of [import_message] keeps true of the message
    table, the loop keeps true of it. *)
Section TableInvariant.

Variable imp : Importer.
Variable P : list Message -> Prop.
Hypothesis P_import :
  forall n w, P (messages (db w)) ->
              P (messages (db (snd (import_message imp n (message_id n) None w)))).

Lemma handle_json_line_keeps line q maxc c w :
  P (messages (db w)) ->
  P (messages (db (snd (handle_json_line line imp q maxc c w)))).
Proof.
  intro H. destruct (handle_json_line_messages line imp q maxc c w) as [E|[n E]];
    rewrite E; auto.
Qed.

Lemma import_lines_keeps q maxc lines :
  forall c w, P (messages (db w)) ->
              P (messages (db (snd (import_lines imp q maxc lines c w)))).
Proof.
  induction lines as [|line lines IH]; intros c w H; simpl; [exact H|].
  unfold bind. pose proof (handle_json_line_keeps line q maxc c w H) as H1.
  destruct (handle_json_line line imp q maxc c w) as [[e|c1] w1]; simpl in H1;
    [exact H1|].
  destruct (reached maxc c1); [exact H1|]. now apply IH.
Qed.

End TableInvariant.

(* ================================================================== *)
(** ** The message table stays a forest *)

Lemma forest_grows_in l added (m : Message) :
  In m l -> In m (l ++ added).
Proof. intro H. apply in_or_app. now left. Qed.

Lemma import_replies_forest imp tid parent rs :
  Forall (fun r => forall p w,
            forest (messages (db w)) ->
            match p with
            | None => tid = message_id r
            | Some q => exists pm, In pm (messages (db w)) /\ msg_id pm = q
                                   /\ msg_message_tree_id pm = tid
            end ->
            forest (messages (db (snd (import_message imp r tid p w))))) rs ->
  forall w,
    forest (messages (db w)) ->
    (exists pm, In pm (messages (db w)) /\ msg_id pm = parent
                /\ msg_message_tree_id pm = tid) ->
    forest (messages (db (snd (import_replies imp rs tid parent w)))).
Proof.
  induction 1 as [|r rs Hr _ IH]; intros w F Hp; [exact F|].
  rewrite import_replies_cons. unfold bind.
  pose proof (Hr (Some parent) w F Hp) as F1.
  pose proof (grows_import_message imp r tid (Some parent) w) as G.
  destruct (import_message imp r tid (Some parent) w) as [[e|m] w1]; simpl in F1, G;
    [exact F1|].
  apply IH; [exact F1|]. destruct Hp as (pm & I & E1 & E2).
  exists pm. split; [|auto]. destruct (grows_messages G) as [added ->].
  now apply forest_grows_in.
Qed.

(** [import_message] keeps the message table a forest, when it is called on a
    root with its own id as tree id, or under a parent row of the tree. *)
Lemma import_message_forest imp tid n :
  forall p w,
    forest (messages (db w)) ->
    match p with
    | None => tid = message_id n
    | Some q => exists pm, In pm (messages (db w)) /\ msg_id pm = q
                           /\ msg_message_tree_id pm = tid
    end ->
    forest (messages (db (snd (import_message imp n tid p w)))).
Proof.
  induction n as [id t r l rc s mn rs IH] using node_ind; intros p w F Hp.
  rewrite import_message_eq. unfold bind.
  set (root := new_Message imp (mkNode id t r l rc s mn rs) tid p).
  destruct (db_add_message_cases root w) as [[_ E]|[(_ & _ & E)|(_ & _ & E)]];
    rewrite E; [exact F|exact F|].
  assert (F0 : forest (messages (db (add_messages [root] w)))).
  { simpl. apply forest_snoc; [exact F|]. unfold row_in_place. simpl.
    destruct p as [q|]; [exact Hp|]. now symmetry. }
  assert (P0 : exists pm, In pm (messages (db (add_messages [root] w)))
                          /\ msg_id pm = id /\ msg_message_tree_id pm = tid).
  { exists root. simpl. split; [apply in_or_app; right; now left|]. auto. }
  pose proof (@import_replies_forest imp tid id rs IH _ F0 P0) as F1.
  simpl replies. simpl message_id.
  destruct (import_replies imp rs tid id (add_messages [root] w)) as [[e|[]] w1];
    exact F1.
Qed.

(** In a forest every row belongs to the tree of a root row. *)
Lemma forest_rooted l :
  forest l ->
  forall m, In m l ->
    exists root, In root l
                 /\ msg_id root = msg_message_tree_id m
                 /\ msg_parent_id root = None.
Proof.
  induction 1 as [|l x F IH R]; intros m I; [destruct I|].
  assert (Old : forall y, In y l ->
                  exists root, In root (l ++ [x])
                               /\ msg_id root = msg_message_tree_id y
                               /\ msg_parent_id root = None).
  { intros y Iy. destruct (IH y Iy) as (root & I1 & E1 & E2).
    exists root. split; [now apply forest_grows_in|auto]. }
  apply in_app_or in I. destruct I as [I|[<-|[]]]; [now apply Old|].
  unfold row_in_place in R. destruct (msg_parent_id x) as [p|] eqn:Ep.
  - destruct R as (pm & Ip & _ & Et). rewrite <- Et. now apply Old.
  - exists x. split; [apply in_or_app; right; now left|]. auto.
Qed.

(** X1.  A run keeps the message table a forest in insertion order: every
    row is a root whose tree id is its own id, or has its parent among the
    rows before it and in the same tree.  So every row belongs to the tree of
    a root row of the table. *)
Theorem import_file_keeps_forest :
  forall lines origin model_name num_activate max_count dry_run persisted,
    forest (messages persisted) ->
    let after := snd (fst (import_file lines origin model_name num_activate max_count
                             dry_run persisted)) in
    forest (messages after)
    /\ forall m, In m (messages after) ->
         exists root, In root (messages after)
                      /\ msg_id root = msg_message_tree_id m
                      /\ msg_parent_id root = None.
Proof.
  intros lines origin mn q maxc dry s F. cbv zeta.
  assert (F' : forest (messages (snd (fst (import_file lines origin mn q maxc dry s))))).
  { unfold import_file, managed_tx_function, import_tx. simpl db.
    set (imp := Importer_init s origin mn).
    pose proof (@import_lines_keeps imp forest
                  (fun n w H => @import_message_forest imp (message_id n) n None w H
                                  eq_refl)
                  q maxc lines 0 {| db := s; log := []; inactive := false |} F) as K.
    unfold session_commit.
    destruct (import_lines imp q maxc lines 0 {| db := s; log := []; inactive := false |})
      as [[e|r] w']; simpl in K; destruct dry; simpl; try assumption.
    destruct (inactive w'); simpl; assumption. }
  split; [exact F'|]. now apply forest_rooted.
Qed.

(** An instance of X1: a tree with a reply and a message, on the empty
    store. *)
Lemma import_file_keeps_forest_witness :
  forest (messages (snd (fst (import_file
                                [tree_line (tree_of (node_with "a" [leaf "b"]));
                                 message_line (leaf "c")]
                                "origin" None 0 None false empty_store)))).
Proof.
  exact (proj1 (@import_file_keeps_forest
                  [tree_line (tree_of (node_with "a" [leaf "b"])); message_line (leaf "c")]
                  "origin" None 0 None false empty_store forest_nil)).
Defined.

(* ================================================================== *)
(** ** Rows are only added, and attributed to the importer *)

Lemma built_from_attributed imp tid n m :
  built_from imp tid n m ->
  attributed (imp_api_client_id imp) (imp_import_user_id imp) m.
Proof.
  intros [parent ->]. unfold attributed. simpl. repeat split.
Qed.

Lemma rows_attributed imp n tid p :
  Forall (attributed (imp_api_client_id imp) (imp_import_user_id imp))
    (rows imp n tid p).
Proof.
  pose proof (rows_nodes imp tid n p) as F.
  induction F as [|x m l1 l2 B _ IH]; constructor; [|exact IH].
  eapply built_from_attributed; exact B.
Qed.

(** X2.  A run changes no row of the message table and removes none: the
    table afterwards is the table before followed by the rows of the run, and
    each of those carries the well-known API client id, the id of the system
    user, a positive review result and its own id as frontend id. *)
Theorem import_file_appends_attributed_rows :
  forall lines origin model_name num_activate max_count dry_run persisted,
    exists added,
      messages (snd (fst (import_file lines origin model_name num_activate max_count
                            dry_run persisted)))
      = messages persisted ++ added
      /\ Forall (attributed IMPORT_API_CLIENT_ID (system_user_id persisted)) added.
Proof.
  intros lines origin mn q maxc dry s.
  unfold import_file, managed_tx_function, import_tx. simpl db.
  set (imp := Importer_init s origin mn).
  set (P := fun l => exists added, l = messages s ++ added
                                   /\ Forall (attributed IMPORT_API_CLIENT_ID
                                                (system_user_id s)) added).
  assert (P0 : P (messages s)).
  { exists []. split; [now rewrite app_nil_r|constructor]. }
  assert (PI : forall n w, P (messages (db w)) ->
                 P (messages (db (snd (import_message imp n (message_id n) None w))))).
  { intros n w (added & E & A).
    destruct (import_message_prefix imp n (message_id n) None w)
      as (more & rest & E1 & E2 & _).
    rewrite E2. simpl. exists (added ++ more). split; [now rewrite E, app_assoc|].
    apply Forall_app. split; [exact A|].
    pose proof (rows_attributed imp n (message_id n) None) as R.
    rewrite E1 in R. apply Forall_app in R. exact (proj1 R). }
  pose proof (@import_lines_keeps imp P PI q maxc lines 0
                {| db := s; log := []; inactive := false |} P0) as K.
  unfold session_commit.
  destruct (import_lines imp q maxc lines 0 {| db := s; log := []; inactive := false |})
    as [[e|r] w']; simpl in K; destruct dry; simpl; try assumption.
  destruct (inactive w'); simpl; assumption.
Qed.

(* ================================================================== *)
(** ** Tree state rows and the log *)

Lemma tree_events_app a b : tree_events (a ++ b) = tree_events a ++ tree_events b.
Proof.
  induction a as [|e a IH]; simpl; [reflexivity|].
  destruct e; simpl; now rewrite ?IH.
Qed.

Lemma tree_events_except e : tree_events [except_event e] = [].
Proof. destruct e; reflexivity. Qed.

Lemma tree_rows_quiet origin w w' evs :
  log w' = log w ++ evs ->
  tree_states (db w') = tree_states (db w) ->
  tree_events evs = [] ->
  tree_rows origin w w'.
Proof.
  intros L T E. exists evs, []. rewrite app_nil_r, E.
  repeat split; auto.
Qed.

Lemma tree_rows_trans origin w1 w2 w3 :
  grows w2 w3 -> tree_rows origin w1 w2 -> tree_rows origin w2 w3 ->
  tree_rows origin w1 w3.
Proof.
  intros G (e1 & a1 & L1 & T1 & S1 & C1 & R1) (e2 & a2 & L2 & T2 & S2 & C2 & R2).
  exists (e1 ++ e2), (a1 ++ a2).
  rewrite L2, L1, T2, T1, !app_assoc, map_app, tree_events_app, S1, S2.
  repeat split; auto.
  - apply Forall_app. auto.
  - apply Forall_app. split; [|exact R2].
    eapply Forall_impl; [|exact R1]. intros t (root & I & E).
    exists root. split; [|exact E].
    destruct (grows_messages G) as [added ->]. now apply forest_grows_in.
Qed.

Lemma log_if_logged (b : bool) evs w :
  log (if b then logged evs w else w) = log w ++ (if b then evs else []).
Proof. destruct b; simpl; [reflexivity|now rewrite app_nil_r]. Qed.

Lemma state_for_cases q c :
  state_for q c = BACKLOG_RANKING \/ state_for q c = RANKING.
Proof. unfold state_for. destruct (q <=? c); auto. Qed.

(** One call adds the tree rows its log reports. *)
Lemma handle_json_line_tree_rows line imp q maxc c w :
  tree_rows (imp_origin imp) w (snd (handle_json_line line imp q maxc c w)).
Proof.
  assert (Q : forall evs, tree_events evs = [] ->
                          tree_rows (imp_origin imp) w (logged evs w)).
  { intros evs E. now apply tree_rows_quiet with (evs := evs). }
  destruct line as [| |d]; try (apply (Q [_]); reflexivity).
  destruct (get_message_tree_id d) eqn:Hd; [|destruct (get_message_id d) eqn:Hm].
  - destruct (as_tree d) as [tree|] eqn:Ht.
    2:{ unfold handle_json_line, try_except, handle_json_line_try, bind. simpl.
        rewrite Hd, Ht. simpl. apply (Q [_]). reflexivity. }
    rewrite (@handle_json_line_tree d tree imp q maxc c w Hd Ht).
    pose proof (handle_tree_facts imp q c tree w) as T.
    destruct (handle_tree imp q c tree w) as [[e|c'] w1]; simpl in T.
    { destruct T as (_ & L & TS). simpl.
      apply tree_rows_quiet with (evs := [except_event e]);
        [simpl; now rewrite L|exact TS|apply tree_events_except]. }
    destruct T as (_ & [(-> & ->)|(-> & _ & Inv & L & TS & MS)]); simpl snd.
    + eapply tree_rows_quiet; [rewrite log_if_logged; simpl; rewrite <- app_assoc;
                                reflexivity|now rewrite db_if_logged|].
      destruct (reached maxc c); reflexivity.
    + set (root := new_Message imp (prompt tree) (message_id (prompt tree)) None) in *.
      exists (ImportedTree (message_id (prompt tree)) (state_for q c)
                (TreeState_eqb (state_for q c) RANKING)
              :: (if reached maxc (c + 1)
                  then [ReachedMaxCount (Py.if_not_none maxc 0)] else [])),
             [new_MessageTreeState imp root (state_for q c)].
      rewrite log_if_logged, db_if_logged, L, TS, <- app_assoc.
      split; [reflexivity|]. split; [reflexivity|]. split.
      { simpl. destruct (reached maxc (c + 1)); reflexivity. }
      split.
      { constructor; [|constructor]. unfold created_tree_state. simpl.
        repeat split. apply state_for_cases. }
      constructor; [|constructor]. exists root. rewrite MS, rows_eq.
      split; [apply in_or_app; right; now left|]. split; reflexivity.
  - destruct (as_node d) as [message|] eqn:Hn.
    2:{ unfold handle_json_line, try_except, handle_json_line_try, bind. simpl.
        rewrite Hd, Hm, Hn. simpl. apply (Q [_]). reflexivity. }
    rewrite (@handle_json_line_message d message imp q maxc c w Hd Hm Hn).
    pose proof (handle_message_facts imp c message w) as T.
    destruct (handle_message imp c message w) as [[e|c'] w1]; simpl in T.
    { destruct T as (_ & L & TS). simpl.
      apply tree_rows_quiet with (evs := [except_event e]);
        [simpl; now rewrite L|exact TS|apply tree_events_except]. }
    destruct T as (_ & [(-> & ->)|(-> & _ & ->)]); simpl snd.
    + apply (Q [_]). reflexivity.
    + apply tree_rows_quiet with (evs := [ImportedMessage (message_id message)]);
        reflexivity.
  - unfold handle_json_line, try_except, handle_json_line_try, bind. simpl.
    rewrite Hd, Hm. simpl. apply tree_rows_quiet with (evs := []);
      [now rewrite app_nil_r|reflexivity|reflexivity].
Qed.

(** The loop adds the tree rows its log reports. *)
Lemma import_lines_tree_rows imp q maxc lines :
  forall c w,
    tree_rows (imp_origin imp) w (snd (import_lines imp q maxc lines c w)).
Proof.
  induction lines as [|line lines IH]; intros c w; simpl.
  - apply tree_rows_quiet with (evs := []); [now rewrite app_nil_r|reflexivity|reflexivity].
  - unfold bind. pose proof (handle_json_line_tree_rows line imp q maxc c w) as T.
    destruct (handle_json_line line imp q maxc c w) as [[e|c1] w1]; simpl in T;
      [exact T|].
    destruct (reached maxc c1); [exact T|].
    eapply tree_rows_trans; [|exact T|apply IH].
    destruct (import_lines_facts imp q maxc lines c1 w1) as (c2 & r & evs & w2 & E & G & _).
    rewrite E. exact G.
Qed.

(** X3.  When a run that commits returns, the tree state rows it has added
    are exactly the trees its log reports as imported, in the same order and
    with the same id, state and [active] flag; nothing else of the table
    changes.  Each added row has zero size, depth and breadth, the origin of
    the run, a state that is Backlog or Ranking, [active] exactly for Ranking,
    and a root row without parent in the message table.  (A run whose commit
    raises persists nothing, whatever its log reports.) *)
Theorem import_file_tree_rows_match_log :
  forall lines origin model_name num_activate max_count persisted n,
    let run := import_file lines origin model_name num_activate max_count false
                 persisted in
    fst (fst run) = inr n ->
    exists added,
      tree_states (snd (fst run)) = tree_states persisted ++ added
      /\ map summary added = tree_events (snd run)
      /\ Forall (created_tree_state origin) added
      /\ Forall (fun t => exists root, In root (messages (snd (fst run)))
                                      /\ msg_id root = mts_message_tree_id t
                                      /\ msg_parent_id root = None) added.
Proof.
  intros lines origin mn q maxc s n. cbv zeta.
  unfold import_file, managed_tx_function, import_tx, session_commit. simpl db.
  set (imp := Importer_init s origin mn).
  pose proof (import_lines_tree_rows imp q maxc lines 0
                {| db := s; log := []; inactive := false |}) as T.
  destruct (import_lines_facts imp q maxc lines 0
              {| db := s; log := []; inactive := false |})
    as (n' & rest & evs0 & w' & E & _).
  rewrite E in T |- *. simpl in T.
  destruct (inactive w'); simpl; [discriminate|]. intros _.
  destruct T as (evs & added & L & TS & S & C & R). simpl in L, TS.
  exists added. rewrite L. auto.
Qed.

(** An instance of X3: two trees and a message, committed. *)
Lemma import_file_tree_rows_match_log_witness :
  let run := import_file [tree_line (tree_of (node_with "a" [leaf "b"]));
                          message_line (leaf "c");
                          tree_line (tree_of (leaf "d"))]
               "origin" None 1 None false empty_store in
  fst (fst run) = inr 3
  /\ exists added,
       tree_states (snd (fst run)) = added
       /\ map summary added = [("a", RANKING, true); ("d", BACKLOG_RANKING, false)]
       /\ Forall (created_tree_state "origin") added.
Proof.
  cbv zeta. split; [reflexivity|].
  destruct (@import_file_tree_rows_match_log
              [tree_line (tree_of (node_with "a" [leaf "b"]));
               message_line (leaf "c");
               tree_line (tree_of (leaf "d"))]
              "origin" None 1 None empty_store 3 eq_refl)
    as (added & TS & S & C & _).
  exists added. split; [exact TS|]. split; [exact S|exact C].
Defined.

(* ================================================================== *)
(** ** Running a file again *)

Lemma store_grows_refl s : store_grows s s.
Proof. split; exists []; now rewrite app_nil_r. Qed.

Lemma store_grows_trans s1 s2 s3 :
  store_grows s1 s2 -> store_grows s2 s3 -> store_grows s1 s3.
Proof.
  intros [[m1 M1] [t1 T1]] [[m2 M2] [t2 T2]]. split.
  - exists (m1 ++ m2). now rewrite M2, M1, app_assoc.
  - exists (t1 ++ t2). now rewrite T2, T1, app_assoc.
Qed.

Lemma grows_store w w' : grows w w' -> store_grows (db w) (db w').
Proof. intro G. split; [apply (grows_messages G)|apply (grows_tree_states G)]. Qed.

Lemma store_grows_has_message id s s' :
  store_grows s s' -> has_message id s = true -> has_message id s' = true.
Proof.
  intros [[added E] _] H. apply has_message_In. apply has_message_In in H.
  rewrite E. unfold ids. rewrite map_app. apply in_or_app. now left.
Qed.

Lemma store_grows_has_tree_state id s s' :
  store_grows s s' -> has_tree_state id s = true -> has_tree_state id s' = true.
Proof.
  intros [_ [added E]] H. apply has_tree_state_In. apply has_tree_state_In in H.
  rewrite E. unfold tree_ids. rewrite map_app. apply in_or_app. now left.
Qed.

Lemma valid_tree_id_Some tree :
  invalid_tree_id tree = false -> exists id, message_tree_id tree = Some id.
Proof.
  unfold invalid_tree_id. destruct (message_tree_id tree) as [id|]; [now exists id|].
  discriminate.
Qed.

Lemma settled_grows line s s' : store_grows s s' -> settled line s -> settled line s'.
Proof.
  intros G S imp q maxc c w2 A2 G2. apply S; [exact A2|].
  eapply store_grows_trans; eassumption.
Qed.

(** An error of the inserts leaves the session inactive. *)
Lemma insert_rows_error_inactive l :
  forall w e, fst (insert_rows l w) = inl e ->
              inactive (snd (insert_rows l w)) = true.
Proof.
  induction l as [|a l IH]; intros w e; simpl; [discriminate|].
  unfold bind.
  destruct (db_add_message_cases a w) as [[I E]|[(_ & _ & E)|(_ & _ & E)]]; rewrite E.
  - intros _. exact I.
  - intros _. reflexivity.
  - apply IH.
Qed.

Lemma import_message_error_inactive imp n tid p w e :
  fst (import_message imp n tid p w) = inl e ->
  inactive (snd (import_message imp n tid p w)) = true.
Proof.
  rewrite import_message_rows. unfold bind.
  pose proof (insert_rows_error_inactive (rows imp n tid p) w) as A.
  destruct (insert_rows (rows imp n tid p) w) as [[x|[]] w1]; simpl in *.
  - intros _. exact (A x eq_refl).
  - discriminate.
Qed.

(** So does an error of [import_tree], unless it is one of the two checks. *)
Lemma import_tree_error_inactive imp tree st w e :
  invalid_tree_id tree = false ->
  supported_state st = true ->
  fst (import_tree imp tree st w) = inl e ->
  inactive (snd (import_tree imp tree st w)) = true.
Proof.
  intros Inv Sup. unfold import_tree, bind. rewrite Inv.
  pose proof (@import_message_error_inactive imp (prompt tree)
                (message_id (prompt tree)) None w) as A.
  destruct (import_message imp (prompt tree) (message_id (prompt tree)) None w)
    as [[x|m] w1]; simpl in A.
  - intros _. exact (A x eq_refl).
  - rewrite Sup. cbv beta iota delta [negb].
    match goal with
    | |- context [db_add_tree_state ?t w1] =>
        destruct (db_add_tree_state_cases t w1)
          as [[I E]|[(_ & _ & E)|(_ & _ & E)]]; rewrite E
    end.
    + intros _. exact I.
    + intros _. reflexivity.
    + discriminate.
Qed.

(** When the tree branch finds no tree state for a valid tree id and leaves
    the session active, it has written the tree state. *)
Lemma handle_tree_active_state imp q c tree id w :
  message_tree_id tree = Some id ->
  invalid_tree_id tree = false ->
  fst (fetch_message_tree_state (Some id) w) = inr None ->
  inactive (snd (handle_tree imp q c tree w)) = false ->
  has_tree_state id (db (snd (handle_tree imp q c tree w))) = true.
Proof.
  intros Hid Inv. unfold handle_tree, bind. rewrite Hid.
  pose proof (fetch_message_tree_state_world (Some id) w) as F.
  destruct (fetch_message_tree_state (Some id) w) as [r w0]; simpl in F.
  subst w0. simpl fst. intros ->. fold (state_for q c).
  pose proof (@import_tree_error_inactive imp tree (state_for q c) w) as Err.
  pose proof (import_tree_facts imp tree (state_for q c) w) as T.
  destruct (import_tree imp tree (state_for q c) w) as [[e|[mts root]] w1];
    simpl in Err, T.
  - simpl. intro A.
    rewrite (Err e Inv (state_for_supported q c) eq_refl) in A. discriminate A.
  - rewrite logger_eq. simpl. intros _.
    destruct T as (_ & _ & -> & -> & _ & _ & _ & TS & _).
    apply has_tree_state_In. rewrite TS. unfold tree_ids. rewrite map_app.
    apply in_or_app. right. simpl. left.
    symmetry. exact (@invalid_tree_id_false tree id Hid Inv).
Qed.

(** Once a line was handled and the session is still active, the line is
    settled: the tree branch has found or written the tree state, the message
    branch has found or written the message row, and everything else never
    writes. *)
Lemma handle_json_line_settles line imp q maxc c w :
  inactive (snd (handle_json_line line imp q maxc c w)) = false ->
  settled line (db (snd (handle_json_line line imp q maxc c w))).
Proof.
  destruct (handle_json_line_facts line imp q maxc c w) as (c1 & evs & w1 & E & G & _).
  pose proof (grows_store G) as GS.
  rewrite E. simpl snd. intros A1 imp' q' maxc' c' w' A' G'.
  pose proof (grows_active G A1) as A.
  assert (Quiet : forall ev, exists w2,
             (inr c', logged [ev] w') = (@inr exn Z c', w2)
             /\ db w2 = db w' /\ inactive w2 = false).
  { intro ev. eexists. split; [reflexivity|]. split; [reflexivity|exact A']. }
  destruct line as [| |d]; try apply Quiet.
  destruct (get_message_tree_id d) eqn:Hd; [|destruct (get_message_id d) eqn:Hm].
  - destruct (as_tree d) as [tree|] eqn:Ht.
    2:{ unfold handle_json_line, try_except, handle_json_line_try, bind. simpl.
        rewrite Hd, Ht. simpl. apply Quiet. }
    rewrite (@handle_json_line_tree d tree imp' q' maxc' c' w' Hd Ht).
    assert (K : db (snd (handle_tree imp' q' c' tree w')) = db w'
                /\ (forall x, fst (handle_tree imp' q' c' tree w') = inr x -> x = c')
                /\ inactive (snd (handle_tree imp' q' c' tree w')) = false).
    { destruct (handle_tree_messages imp' q' c' tree w')
        as [(D & C & _ & I)|(F' & Inv & _)]; [rewrite I; auto|].
      exfalso.
      destruct (valid_tree_id_Some _ Inv) as [id Hid].
      rewrite Hid in F'. apply fetch_message_tree_state_None in F'.
      destruct F' as [_ F'].
      rewrite (@handle_json_line_tree d tree imp q maxc c w Hd Ht) in E.
      assert (D1 : db w1 = db (snd (handle_tree imp q c tree w))
                   /\ inactive w1 = inactive (snd (handle_tree imp q c tree w))).
      { destruct (handle_tree imp q c tree w) as [[e|x] w0]; injection E as _ <-;
          [split; reflexivity|]. now rewrite db_if_logged, inactive_if_logged. }
      destruct D1 as [D1 I1].
      assert (Has : has_tree_state id (db w1) = true).
      { destruct (has_tree_state id (db w)) eqn:H0.
        - exact (store_grows_has_tree_state _ GS H0).
        - rewrite D1. apply handle_tree_active_state; [exact Hid|exact Inv| |congruence].
          apply fetch_message_tree_state_None. auto. }
      rewrite (store_grows_has_tree_state _ G' Has) in F'. discriminate F'. }
    destruct K as (D & C & I).
    destruct (handle_tree imp' q' c' tree w') as [[e|x] w2]; simpl in D, C, I.
    + eexists. split; [reflexivity|]. split; [exact D|exact I].
    + rewrite (C x eq_refl). eexists. split; [reflexivity|].
      now rewrite db_if_logged, inactive_if_logged.
  - destruct (as_node d) as [message|] eqn:Hn.
    2:{ unfold handle_json_line, try_except, handle_json_line_try, bind. simpl.
        rewrite Hd, Hm, Hn. simpl. apply Quiet. }
    rewrite (@handle_json_line_message d message imp' q' maxc' c' w' Hd Hm Hn).
    assert (Has : has_message (message_id message) (db w') = true).
    { apply (store_grows_has_message _ G').
      rewrite (@handle_json_line_message d message imp q maxc c w Hd Hm Hn) in E.
      assert (D1 : db w1 = db (snd (handle_message imp c message w))).
      { destruct (handle_message imp c message w) as [[e|x] w0]; injection E as _ <-;
          reflexivity. }
      rewrite D1.
      destruct (handle_message_messages imp c message w) as [(H0 & D & _)|(_ & M)].
      - now rewrite D.
      - rewrite (has_message_messages _ _ _ M).
        now apply import_message_root_present. }
    destruct (@handle_message_existing imp' c' message w' Has) as [D C].
    pose proof (@handle_message_existing_active imp' c' message w' Has) as I.
    rewrite A' in I.
    destruct (handle_message imp' c' message w') as [[e|x] w2]; simpl in D, C, I.
    + eexists. split; [reflexivity|]. split; [exact D|exact I].
    + rewrite (C x eq_refl). eexists. split; [reflexivity|]. split; [exact D|exact I].
  - unfold handle_json_line, try_except, handle_json_line_try, bind. simpl.
    rewrite Hd, Hm. simpl. eexists. split; [reflexivity|]. split; [reflexivity|exact A'].
Qed.

(** After the loop, when the session is still active, every line it read is
    settled in its store. *)
Lemma import_lines_settles imp q maxc lines :
  forall c w n wf,
    import_lines imp q maxc lines c w = (inr (n, []), wf) ->
    inactive wf = false ->
    Forall (fun line => settled line (db wf)) lines.
Proof.
  induction lines as [|line lines IH]; intros c w n wf E A; [constructor|].
  simpl in E. unfold bind in E.
  pose proof (handle_json_line_settles line imp q maxc c w) as S.
  destruct (handle_json_line line imp q maxc c w) as [[e|c1] w1]; [discriminate E|].
  simpl in S. destruct (reached maxc c1).
  - unfold ret in E. injection E as Hn Hl Hw. subst.
    constructor; [exact (S A)|constructor].
  - destruct (import_lines_facts imp q maxc lines c1 w1) as (c2 & r & evs & w2 & E2 & G & _).
    rewrite E2 in E. injection E as Hn Hl Hw. subst.
    constructor; [exact (settled_grows (grows_store G) (S (grows_active G A)))|].
    exact (IH c1 w1 n wf E2 A).
Qed.

(** Over settled lines the loop writes nothing, counts nothing and leaves an
    active session active. *)
Lemma import_lines_settled imp q maxc lines s :
  Forall (fun line => settled line s) lines ->
  forall c w,
    inactive w = false ->
    store_grows s (db w) ->
    exists rest w', import_lines imp q maxc lines c w = (inr (c, rest), w')
                    /\ db w' = db w /\ inactive w' = false.
Proof.
  induction 1 as [|line lines S _ IH]; intros c w A G; simpl.
  - now exists [], w.
  - unfold bind. destruct (S imp q maxc c w A G) as (w1 & E & D & A1). rewrite E.
    destruct (reached maxc c); [now exists lines, w1|].
    assert (G1 : store_grows s (db w1)) by (rewrite D; exact G).
    destruct (IH c w1 A1 G1) as (rest & w' & E2 & D2 & A2).
    exists rest, w'. split; [exact E2|]. split; [congruence|exact A2].
Qed.

(** X4.  After a run without maximum that has committed and returned, any
    further run over the same file - whatever its origin, model name, quota,
    maximum or mode - returns 0 and leaves the persisted store exactly as the
    first run left it. *)
Theorem rerun_changes_nothing :
  forall lines origin model_name num_activate persisted n
         origin' model_name' num_activate' max_count' dry_run',
    let first_run := import_file lines origin model_name num_activate None false
                       persisted in
    let first := snd (fst first_run) in
    let again := import_file lines origin' model_name' num_activate' max_count'
                   dry_run' first in
    fst (fst first_run) = inr n ->
    fst (fst again) = inr 0 /\ snd (fst again) = first.
Proof.
  intros lines origin mn q s n origin' mn' q' maxc' dry'. cbv zeta. intro R1.
  assert (S : Forall (fun line =>
                        settled line
                          (snd (fst (import_file lines origin mn q None false s))))
                     lines).
  { revert R1.
    unfold import_file, managed_tx_function, import_tx, session_commit. simpl db.
    set (imp := Importer_init s origin mn).
    set (w0 := {| db := s; log := []; inactive := false |}).
    pose proof (import_lines_None_rest imp q lines 0 w0) as R.
    destruct (import_lines_facts imp q None lines 0 w0) as (k & rest & evs & wf & E & _).
    rewrite E in R |- *. simpl in R. subst rest.
    destruct (inactive wf) eqn:A; simpl; [discriminate|]. intros _.
    exact (@import_lines_settles imp q None lines 0 w0 k wf E A). }
  set (first := snd (fst (import_file lines origin mn q None false s))) in *.
  unfold import_file, managed_tx_function, import_tx, session_commit. simpl db.
  destruct (@import_lines_settled (Importer_init first origin' mn') q' maxc' lines
              first S 0 {| db := first; log := []; inactive := false |}
              eq_refl (store_grows_refl first))
    as (rest & w' & E & D & A).
  rewrite E. simpl in D. destruct dry'; simpl; [auto|]. rewrite A. simpl. auto.
Qed.

(** An instance of X4: a file of a tree, a message and a malformed line, run
    twice. *)
Lemma rerun_changes_nothing_witness :
  let lines := [tree_line (tree_of (node_with "a" [leaf "b"]));
                message_line (leaf "c"); Malformed] in
  let first_run := import_file lines "origin" None 1 None false empty_store in
  fst (fst first_run) = inr 2
  /\ fst (fst (import_file lines "other" None 0 (Some 1) false (snd (fst first_run))))
     = inr 0
  /\ snd (fst (import_file lines "other" None 0 (Some 1) false (snd (fst first_run))))
     = snd (fst first_run).
Proof.
  cbv zeta. split; [reflexivity|].
  exact (@rerun_changes_nothing
           [tree_line (tree_of (node_with "a" [leaf "b"]));
            message_line (leaf "c"); Malformed]
           "origin" None 1 empty_store 2 "other" None 0 (Some 1) false eq_refl).
Defined.

(* ================================================================== *)
(** ** Bounds of the count *)

(** The loop adds at most one to the count for every line it reads, and with
    a positive maximum it does not go beyond it. *)
Lemma import_lines_count imp q maxc lines :
  forall c w n rest w',
    import_lines imp q maxc lines c w = (inr (n, rest), w') ->
    exists read,
      lines = read ++ rest
      /\ c <= n <= c + Z.of_nat (length read)
      /\ forall m, maxc = Some m -> 0 < m -> c < m -> n <= m.
Proof.
  induction lines as [|line lines IH]; intros c w n rest w' E; simpl in E.
  - unfold ret in E. injection E as Hn Hr _. subst. exists []. simpl.
    split; [reflexivity|]. split; [lia|]. intros; lia.
  - unfold bind in E.
    destruct (handle_json_line_facts line imp q maxc c w)
      as (c1 & evs & w1 & E1 & _ & (_ & _ & B & _)).
    rewrite E1 in E. destruct (reached maxc c1) eqn:R.
    + unfold ret in E. injection E as Hn Hr _. subst. exists [line].
      split; [reflexivity|]. split; [simpl length; lia|].
      intros m Em Hm Hc. lia.
    + destruct (IH c1 w1 n rest w' E) as (read & -> & Bn & Bm).
      exists (line :: read). split; [reflexivity|]. split.
      * simpl length. lia.
      * intros m -> Hm Hc. apply (Bm m eq_refl Hm).
        rewrite reached_Some in R by lia. apply Z.leb_gt in R. lia.
Qed.

(** X5.  The count a run returns is at least 0 and at most the number of lines
    of the file, and with a positive maximum it is at most the maximum. *)
Theorem import_file_count_bounds :
  forall lines origin model_name num_activate max_count dry_run persisted n,
    fst (fst (import_file lines origin model_name num_activate max_count dry_run
                persisted)) = inr n ->
    0 <= n <= Z.of_nat (length lines)
    /\ forall m, max_count = Some m -> 0 < m -> n <= m.
Proof.
  intros lines origin mn q maxc dry s n.
  unfold import_file, managed_tx_function, import_tx, session_commit. simpl db.
  set (imp := Importer_init s origin mn).
  destruct (import_lines_facts imp q maxc lines 0
              {| db := s; log := []; inactive := false |})
    as (k & rest & evs & w' & E & _).
  destruct (@import_lines_count imp q maxc lines 0 _ k rest w' E) as (read & El & Bn & Bm).
  rewrite E. intro R.
  assert (Ek : k = n).
  { destruct dry; simpl in R; [congruence|].
    destruct (inactive w'); simpl in R; [discriminate R|congruence]. }
  subst k. split.
  - rewrite El, length_app. lia.
  - intros m Hm Hp. apply (Bm m Hm Hp). lia.
Qed.

(** An instance of X5: three records and a malformed line under the maximum
    2. *)
Lemma import_file_count_bounds_witness :
  let lines := [tree_line (tree_of (leaf "a")); Malformed;
                message_line (leaf "b"); tree_line (tree_of (leaf "c"))] in
  fst (fst (import_file lines "origin" None 0 (Some 2) false empty_store)) = inr 2
  /\ 0 <= 2 <= Z.of_nat (length lines)
  /\ forall m, Some 2 = Some m -> 0 < m -> 2 <= m.
Proof.
  cbv zeta. split; [reflexivity|].
  exact (@import_file_count_bounds
           [tree_line (tree_of (leaf "a")); Malformed;
            message_line (leaf "b"); tree_line (tree_of (leaf "c"))]
           "origin" None 0 (Some 2) false empty_store 2 eq_refl).
Defined.

(* ================================================================== *)
(** ** A negative maximum *)

(** X6.  A negative [max_count] is truthy and already reached by any count:
    the loop handles the first line of the file and stops, leaving every other
    line unread. *)
Theorem negative_max_count_reads_one_line :
  forall lines origin model_name num_activate m w,
    m < 0 ->
    exists n w',
      import_tx lines origin model_name num_activate (Some m) w
      = (inr (n, tl lines), w')
      /\ (n = 0 \/ n = 1).
Proof.
  intros lines origin mn q m w Hm. unfold import_tx.
  set (imp := Importer_init (db w) origin mn).
  destruct lines as [|line lines]; simpl.
  - exists 0, w. auto.
  - unfold bind.
    destruct (handle_json_line_facts line imp q (Some m) 0 w)
      as (c1 & evs & w1 & E1 & _ & (_ & _ & B & _)).
    rewrite E1. rewrite reached_Some by lia.
    destruct (Z.leb_spec m c1) as [_|Lt]; [|lia].
    exists c1, w1. split; [reflexivity|]. lia.
Qed.

(** An instance of X6: maximum -1 and three new records. *)
Lemma negative_max_count_reads_one_line_witness :
  exists n w',
    import_tx [tree_line (tree_of (leaf "a")); tree_line (tree_of (leaf "b"));
               message_line (leaf "c")] "origin" None 0 (Some (-1)) empty_world
    = (inr (n, [tree_line (tree_of (leaf "b")); message_line (leaf "c")]), w')
    /\ (n = 0 \/ n = 1).
Proof.
  exact (@negative_max_count_reads_one_line
           [tree_line (tree_of (leaf "a")); tree_line (tree_of (leaf "b"));
            message_line (leaf "c")] "origin" None 0 (-1) empty_world eq_refl).
Defined.

(* ================================================================== *)
(** ** Insert, then look up *)

Lemma filter_none {A} (f : A -> bool) l :
  (forall x, In x l -> f x = false) -> filter f l = [].
Proof.
  induction l as [|a l IH]; intro H; simpl; [reflexivity|].
  rewrite (H a (or_introl eq_refl)). apply IH. intros x I. apply H. now right.
Qed.

(** In a table with pairwise distinct ids, selecting by the id of a row gives
    that row and no other. *)
Lemma filter_by_id l m :
  NoDup (ids l) -> In m l ->
  filter (fun x => String.eqb (msg_id x) (msg_id m)) l = [m].
Proof.
  induction l as [|a l IH]; intros N I; [destruct I|].
  simpl in N. apply NoDup_cons_iff in N. destruct N as [Na N]. simpl.
  destruct I as [->|I].
  - rewrite String.eqb_refl. f_equal. apply filter_none. intros x Ix.
    apply String.eqb_neq. intro E. apply Na. rewrite <- E. now apply in_map.
  - destruct (String.eqb_spec (msg_id a) (msg_id m)) as [E|_]; [|now apply IH].
    exfalso. apply Na. rewrite E. now apply in_map.
Qed.

Lemma Forall2_In_left {A B} (R : A -> B -> Prop) l1 l2 x :
  Forall2 R l1 l2 -> In x l1 -> exists y, In y l2 /\ R x y.
Proof.
  induction 1 as [|a b l1 l2 Rab _ IH]; intro I; [destruct I|].
  destruct I as [<-|I].
  - exists b. split; [now left|exact Rab].
  - destruct (IH I) as (y & Iy & Ry). exists y. split; [now right|exact Ry].
Qed.

(** X7.  In an active session, when the ids of a record and of all its
    replies are pairwise distinct and new to the message table,
    [import_message] returns the row of the record, and afterwards
    [fetch_message] finds, for every node of the record, exactly the row built
    from that node. *)
Theorem import_message_then_fetch :
  forall imp message tree_id parent_id w,
    inactive w = false ->
    NoDup (ids (messages (db w)) ++ ids (rows imp message tree_id parent_id)) ->
    let w' := snd (import_message imp message tree_id parent_id w) in
    fst (import_message imp message tree_id parent_id w)
    = inr (new_Message imp message tree_id parent_id)
    /\ forall node,
         In node (nodes message) ->
         exists m, fetch_message (message_id node) w' = (inr (Some m), w')
                   /\ built_from imp tree_id node m.
Proof.
  intros imp message tid p w A N. cbv zeta.
  rewrite (@import_message_ok imp message tid p w A N).
  split; [reflexivity|]. intros node I. simpl snd.
  destruct (@Forall2_In_left _ _ _ _ _ node (rows_nodes imp tid message p) I)
    as (m & Im & B).
  exists m. split; [|exact B].
  assert (Eid : message_id node = msg_id m) by (destruct B as [q ->]; reflexivity).
  unfold fetch_message. rewrite Eid. simpl inactive. rewrite A. simpl messages.
  rewrite filter_by_id; [reflexivity| |apply in_or_app; now right].
  unfold ids in *. now rewrite map_app.
Qed.

(** An instance of X7: a root with two replies, one of them with a reply of
    its own, on the empty store. *)
Lemma import_message_then_fetch_witness :
  let record := node_with "a" [node_with "b" [leaf "c"]; leaf "d"] in
  let w' := snd (import_message sample_importer record "a" None empty_world) in
  exists m, fetch_message "c" w' = (inr (Some m), w')
            /\ built_from sample_importer "a" (leaf "c") m.
Proof.
  assert (N : NoDup (ids (messages (db empty_world))
                     ++ ids (rows sample_importer
                               (node_with "a" [node_with "b" [leaf "c"]; leaf "d"])
                               "a" None))).
  { simpl. repeat constructor; simpl; intuition discriminate. }
  apply (proj2 (@import_message_then_fetch sample_importer
                  (node_with "a" [node_with "b" [leaf "c"]; leaf "d"])
                  "a" None empty_world eq_refl N) (leaf "c")).
  simpl. auto.
Defined.

(* ================================================================== *)
(** ** [str2bool] *)

Lemma lower_char_idem c : lower_char (lower_char c) = lower_char c.
Proof. destruct c as [[] [] [] [] [] [] [] []]; reflexivity. Qed.

Lemma lower_idem s : lower (lower s) = lower s.
Proof.
  induction s as [|c s IH]; simpl; [reflexivity|]. now rewrite lower_char_idem, IH.
Qed.

Lemma member_In v words : member v words = true <-> In v words.
Proof.
  unfold member. rewrite existsb_exists. split.
  - intros (x & I & E). apply String.eqb_eq in E. now subst.
  - intro I. exists v. split; [exact I|apply String.eqb_refl].
Qed.

(** X8.  [str2bool] does not look at the case of letters: a text and its
    lower-case form are read alike.  It reads a text as true exactly when the
    lower-case form is one of yes, true, t, y, 1, as false exactly when it is
    one of no, false, f, n, 0, and raises for every other text; a [bool] is
    passed through. *)
Theorem str2bool_by_lower_case_word :
  forall s,
    str2bool (StrValue (lower s)) = str2bool (StrValue s)
    /\ (str2bool (StrValue s) = inr true <-> In (lower s) true_words)
    /\ (str2bool (StrValue s) = inr false <-> In (lower s) false_words)
    /\ (str2bool (StrValue s) = inl Boolean_value_expected
        <-> ~ In (lower s) (true_words ++ false_words))
    /\ forall b, str2bool (BoolValue b) = inr b.
Proof.
  intro s. split; [unfold str2bool; now rewrite lower_idem|].
  assert (D : forall v, In v true_words -> In v false_words -> False).
  { intros v T F. simpl in T, F.
    repeat (destruct T as [T|T]; [subst v; intuition discriminate|]). exact T. }
  pose proof (member_In (lower s) true_words) as MT.
  pose proof (member_In (lower s) false_words) as MF.
  assert (NI : ~ In (lower s) (true_words ++ false_words)
               <-> ~ In (lower s) true_words /\ ~ In (lower s) false_words).
  { split.
    - intro N. split; intro I; apply N, in_or_app; auto.
    - intros [NT NF] I. apply in_app_or in I. tauto. }
  unfold str2bool.
  destruct (member (lower s) true_words) eqn:ET;
    [|destruct (member (lower s) false_words) eqn:EF].
  - pose proof (proj1 MT eq_refl) as T.
    refine (conj _ (conj _ (conj _ (fun b => eq_refl)))).
    + split; [intros _; exact T|reflexivity].
    + split; [discriminate|]. intro F. destruct (D _ T F).
    + split; [discriminate|]. intro N. apply NI in N. tauto.
  - pose proof (proj1 MF eq_refl) as F.
    refine (conj _ (conj _ (conj _ (fun b => eq_refl)))).
    + split; [discriminate|]. intro T. destruct (D _ T F).
    + split; [intros _; exact F|reflexivity].
    + split; [discriminate|]. intro N. apply NI in N. tauto.
  - assert (NT : ~ In (lower s) true_words).
    { intro T. apply MT in T. discriminate. }
    assert (NF : ~ In (lower s) false_words).
    { intro F. apply MF in F. discriminate. }
    refine (conj _ (conj _ (conj _ (fun b => eq_refl)))).
    + split; [discriminate|tauto].
    + split; [discriminate|tauto].
    + split; [intros _; apply NI; tauto|reflexivity].
Qed.

(* ================================================================== *)
(** ** The run as a whole *)

(** A run that returns gives the number of imports of its log; what it
    persists and logs comes from the session of [import_tx].  A run raises
    only at its commit, in an inactive session, and persists nothing then. *)
Lemma import_file_result lines origin mn q maxc dry s :
  exists n rest w',
    import_lines (Importer_init s origin mn) q maxc lines 0
      {| db := s; log := []; inactive := false |}
    = (inr (n, rest), w')
    /\ import_file lines origin mn q maxc dry s
       = (if dry || negb (inactive w') then inr n else inl PendingRollbackError,
          if dry || inactive w' then s else db w',
          (if dry then [DryRunWithRollback] else []) ++ log w')
    /\ n = count_imports (log w')
    /\ run_events q 0 {| db := s; log := []; inactive := false |} w' n (log w')
    /\ tree_rows origin {| db := s; log := []; inactive := false |} w'.
Proof.
  set (imp := Importer_init s origin mn).
  set (w0 := {| db := s; log := []; inactive := false |}).
  pose proof (import_lines_tree_rows imp q maxc lines 0 w0) as T.
  destruct (import_lines_facts imp q maxc lines 0 w0)
    as (n & rest & evs & w' & E & _ & RE).
  rewrite E in T. simpl in T. exists n, rest, w'.
  assert (L : log w' = evs) by (destruct RE as (L & _); exact L).
  split; [exact E|]. split.
  - unfold import_file, managed_tx_function, import_tx, session_commit.
    simpl db. fold imp w0.
    rewrite E. destruct dry; destruct (inactive w'); reflexivity.
  - rewrite L. split; [destruct RE as (_ & C & _); lia|]. split; [exact RE|exact T].
Qed.




(* ================================================================== *)
(** ** Ranking trees come first *)

Lemma import_file_log_state lines origin mn q maxc dry s pre id st act post :
  snd (import_file lines origin mn q maxc dry s) = pre ++ ImportedTree id st act :: post ->
  st = state_for q (count_imports pre).
Proof.
  destruct (import_file_result lines origin mn q maxc dry s)
    as (n & rest & w' & _ & E & _ & (_ & _ & T) & _).
  rewrite E. simpl snd. destruct dry; simpl app; intro H.
  - destruct pre as [|x pre]; [discriminate H|]. injection H as <- H.
    rewrite count_imports_dry. exact (proj1 (T pre id st act post H)).
  - exact (proj1 (T pre id st act post H)).
Qed.

(** X10.  Among the trees a run imports, those in state Ranking come first:
    once the log reports a tree in state Backlog, every tree it reports later
    is in state Backlog too. *)
Theorem ranking_trees_come_first :
  forall lines origin model_name num_activate max_count dry_run persisted
         pre id1 act1 mid id2 st2 act2 post,
    snd (import_file lines origin model_name num_activate max_count dry_run persisted)
    = pre ++ ImportedTree id1 BACKLOG_RANKING act1
          :: mid ++ ImportedTree id2 st2 act2 :: post ->
    st2 = BACKLOG_RANKING.
Proof.
  intros lines origin mn q maxc dry s pre id1 act1 mid id2 st2 act2 post H.
  pose proof (@import_file_log_state lines origin mn q maxc dry s pre id1
                BACKLOG_RANKING act1 (mid ++ ImportedTree id2 st2 act2 :: post) H) as S1.
  assert (H2 : snd (import_file lines origin mn q maxc dry s)
               = (pre ++ ImportedTree id1 BACKLOG_RANKING act1 :: mid)
                 ++ ImportedTree id2 st2 act2 :: post).
  { rewrite H, <- app_assoc. reflexivity. }
  pose proof (@import_file_log_state lines origin mn q maxc dry s _ id2 st2 act2 post H2)
    as S2.
  rewrite count_imports_app, count_imports_tree in S2.
  pose proof (count_imports_nonneg mid) as Nm.
  unfold state_for in S1, S2.
  destruct (Z.leb_spec q (count_imports pre)); [|discriminate S1].
  destruct (Z.leb_spec q (count_imports pre + (1 + count_imports mid))); [exact S2|lia].
Qed.

(** An instance of X10: quota 1 and three new trees with a skipped line
    between them. *)
Lemma ranking_trees_come_first_witness :
  let lines := [tree_line (tree_of (leaf "a")); tree_line (tree_of (leaf "b"));
                tree_line (tree_of (leaf "a")); tree_line (tree_of (leaf "c"))] in
  snd (import_file lines "origin" None 1 None false empty_store)
  = [ImportedTree "a" RANKING true] ++ ImportedTree "b" BACKLOG_RANKING false
      :: [SkippingExistingTree (Some "a")] ++ ImportedTree "c" BACKLOG_RANKING false :: []
  /\ BACKLOG_RANKING = BACKLOG_RANKING.
Proof.
  split; [reflexivity|].
  exact (@ranking_trees_come_first
           [tree_line (tree_of (leaf "a")); tree_line (tree_of (leaf "b"));
            tree_line (tree_of (leaf "a")); tree_line (tree_of (leaf "c"))]
           "origin" None 1 None false empty_store
           [ImportedTree "a" RANKING true] "b" false
           [SkippingExistingTree (Some "a")] "c" BACKLOG_RANKING false [] eq_refl).
Defined.

(* ================================================================== *)
(** ** [import_tree], then look up *)

Lemma filter_app_last {A} (f : A -> bool) l x :
  existsb f l = false -> f x = true -> filter f (l ++ [x]) = [x].
Proof.
  intros H Hx. rewrite filter_app. simpl. rewrite Hx.
  now rewrite (proj2 (filter_nil_existsb f l) H).
Qed.

(** X11.  [import_tree] returns only for a tree whose tree id is present and
    equal to the id of its root, and for the state Backlog or Ranking.  The
    tree state row it returns has the id of the root, the state it was given
    and [active] exactly for Ranking, and right afterwards
    [fetch_message_tree_state] of the tree id finds that row and no other. *)
Theorem import_tree_then_fetch :
  forall imp tree st w mts root_msg w',
    import_tree imp tree st w = (inr (mts, root_msg), w') ->
    message_tree_id tree = Some (msg_id root_msg)
    /\ msg_id root_msg = message_id (prompt tree)
    /\ mts_message_tree_id mts = msg_id root_msg
    /\ (st = BACKLOG_RANKING \/ st = RANKING)
    /\ mts_state mts = st
    /\ mts_active mts = TreeState_eqb st RANKING
    /\ fetch_message_tree_state (message_tree_id tree) w' = (inr (Some mts), w').
Proof.
  intros imp tree st w mts root w' E.
  pose proof (@import_tree_returns_active imp tree st w (mts, root)) as A.
  pose proof (import_tree_facts imp tree st w) as T.
  rewrite E in T, A. simpl in T, A. destruct (A eq_refl) as [_ A'].
  destruct T as (_ & _ & -> & -> & Inv & Sup & Has & TS & _).
  destruct (valid_tree_id_Some _ Inv) as [id Hid].
  pose proof (@invalid_tree_id_false tree id Hid Inv) as Eid. subst id.
  assert (St : st = BACKLOG_RANKING \/ st = RANKING).
  { destruct st as [| |name]; auto. discriminate Sup. }
  simpl. repeat split; auto.
  rewrite Hid. unfold fetch_message_tree_state. rewrite A', TS.
  rewrite filter_app_last; [reflexivity|exact Has|]. simpl. apply String.eqb_refl.
Qed.

(** An instance of X11: a new tree with one reply, in state Ranking. *)
Lemma import_tree_then_fetch_witness :
  let tree := tree_of (node_with "a" [leaf "b"]) in
  let r := import_tree sample_importer tree RANKING empty_world in
  exists mts, fetch_message_tree_state (Some "a") (snd r) = (inr (Some mts), snd r)
              /\ mts_state mts = RANKING /\ mts_active mts = true.
Proof.
  pose proof (@import_tree_then_fetch sample_importer
                (tree_of (node_with "a" [leaf "b"])) RANKING empty_world
                _ _ _ eq_refl) as H.
  eexists. split; [exact (proj2 (proj2 (proj2 (proj2 (proj2 (proj2 H))))))|].
  split; reflexivity.
Defined.
